(** * rankvote: the instant-runoff resolver of src/App.js

    A shallow embedding of [calculateRankedChoiceWinner] (src/App.js, lines
    689-734) together with the few JavaScript primitives it relies on, and the
    properties of the resolver stated in the specification.

    Candidate identifiers are JavaScript strings.  The tally of a round is a
    plain object created by [{}] and used as a map from identifier to count, so
    the embedding keeps what such an object does and a mathematical map does
    not: the order in which [Object.entries] lists the keys, the accessor
    [__proto__] inherited from [Object.prototype], and the truthiness test the
    code applies to identifiers.

    The loop [while (true)] is run on fuel: [loop fuel] makes at most [fuel]
    passes through the body and is [None] when they do not reach a [return]
    or a [throw].  Every statement about a result is a statement about all
    sufficient amounts of fuel. *)

From Stdlib Require Import String Ascii List Bool Arith NArith ZArith QArith.
From Stdlib Require Import Lia Permutation.
Import ListNotations.
Close Scope Q_scope.
Local Open Scope string_scope.
Local Open Scope list_scope.
Local Open Scope nat_scope.

(** ** JavaScript primitives *)

Module JS.

(** [ToBoolean] of a string: the empty string is the only falsy one. *)
Definition truthy (s : string) : bool := negb (String.eqb s "").

(** [Array.prototype.includes] on an array of strings. *)
Definition includes (l : list string) (x : string) : bool :=
  existsb (String.eqb x) l.

(** [Array.prototype.find]: the first element satisfying the callback;
    [None] is [undefined]. *)
Definition find {A : Type} (p : A -> bool) (l : list A) : option A :=
  List.find p l.

(** [Array.prototype.sort] with a comparator.  The sort is stable
    (ECMAScript 2019), so with a consistent comparator its result is the one
    of any stable sort; insertion from the right is one. *)
Section Sort.
Context {A : Type} (cmp : A -> A -> Z).

Fixpoint insertSorted (x : A) (l : list A) : list A :=
  match l with
  | [] => [x]
  | y :: l' => if (cmp x y <=? 0)%Z then x :: l else y :: insertSorted x l'
  end.

Definition sort (l : list A) : list A := fold_right insertSorted [] l.
End Sort.

(** The first entry of an array carries the least key. *)
Definition headLeast {A : Type} (key : A -> Z) (l : list A) : Prop :=
  match l with
  | [] => True
  | x :: _ => forall y, In y l -> (key x <= key y)%Z
  end.

(** The own enumerable properties of an object created by [{}] whose values
    are counts, in the order in which the properties were created. *)
Definition object : Type := list (string * nat).

Definition protoKey : string := "__proto__".

Fixpoint assoc (k : string) (o : object) : option nat :=
  match o with
  | [] => None
  | (k', v) :: o' => if String.eqb k' k then Some v else assoc k o'
  end.

(** [o[k] = v].  The key [__proto__] is the accessor property that [o]
    inherits from [Object.prototype]; an assignment calls its setter, which
    returns at once when the value is neither an object nor [null]
    (ECMAScript, set Object.prototype.__proto__): no own property is created.
    Every other key of [Object.prototype] is a writable data property, and
    assigning to it creates an own property of [o]. *)
Definition setProp (o : object) (k : string) (v : nat) : object :=
  if String.eqb k protoKey then o
  else match assoc k o with
       | Some _ => map (fun e => if String.eqb (fst e) k then (k, v) else e) o
       | None => o ++ [(k, v)]
       end.

(** The number read by [o[k]]; [None] when the value read is not a number
    ([__proto__] reads the prototype object, a key that is not an own
    property reads [undefined] or an inherited function).  In [>] and in
    [++] such a value converts to [NaN], and every comparison with [NaN] is
    false. *)
Definition getProp (o : object) (k : string) : option nat :=
  if String.eqb k protoKey then None else assoc k o.

(** [o[k]++] for a key that holds a count (the resolver only increments keys
    it has initialised, see [firstChoice_has_tally] below) or for
    [__proto__], where the [NaN] written back is ignored by the setter. *)
Definition incrProp (o : object) (k : string) : object :=
  if String.eqb k protoKey then o
  else map (fun e => if String.eqb (fst e) k then (fst e, S (snd e)) else e) o.

(** An array index is the canonical decimal string of an integer between 0
    and 2^32 - 2. *)
Definition digitValue (c : ascii) : option N :=
  let n := N_of_ascii c in
  if ((48 <=? n) && (n <=? 57))%N then Some (n - 48)%N else None.

Fixpoint parseDigits (s : string) (acc : N) : option N :=
  match s with
  | EmptyString => Some acc
  | String c s' =>
      match digitValue c with
      | Some d => parseDigits s' (10 * acc + d)%N
      | None => None
      end
  end.

Definition arrayIndex (s : string) : option N :=
  match s with
  | EmptyString => None
  | String c s' =>
      if (Ascii.eqb c "0"%char && negb (String.eqb s' ""))%bool then None
      else match parseDigits s 0%N with
           | Some n => if (n <? 4294967295)%N then Some n else None
           | None => None
           end
  end.

Definition isIndex (s : string) : bool :=
  match arrayIndex s with Some _ => true | None => false end.

Definition indexOf (s : string) : N :=
  match arrayIndex s with Some n => n | None => 0%N end.

Definition cmpIndex (e1 e2 : string * nat) : Z :=
  (Z.of_N (indexOf (fst e1)) - Z.of_N (indexOf (fst e2)))%Z.

(** [Object.entries(o)]: the own keys that are array indices in ascending
    numeric order, then the other keys in the order in which they were
    created (ECMAScript, OrdinaryOwnPropertyKeys). *)
Definition entries (o : object) : list (string * nat) :=
  sort cmpIndex (filter (fun e => isIndex (fst e)) o)
  ++ filter (fun e => negb (isIndex (fst e))) o.

End JS.

(** ** The resolver *)

(** How a call, or one pass through the body of the loop, ends. *)
Inductive completion : Type :=
| Returns (v : string)
| ReturnsUndefined
| ThrowsTypeError.

Inductive step : Type :=
| Done (c : completion)
| Continue (currentOptions : list string).

Definition sentinel : string := "No votes submitted yet.".

(** [options.forEach(option => o[option] = 0)] *)
Definition zeroEach (o : JS.object) (options : list string) : JS.object :=
  fold_left (fun o option => JS.setProp o option 0) options o.

Section Round.
Variable allVotes : list (list string).
Variable currentOptions : list string.

(** [const firstPlaceVotes = {}] and
    [currentOptions.forEach(option => firstPlaceVotes[option] = 0)] *)
Definition initialVotes : JS.object := zeroEach [] currentOptions.

(** [vote.find(choice => currentOptions.includes(choice))] *)
Definition firstChoice (vote : list string) : option string :=
  JS.find (JS.includes currentOptions) vote.

(** [if (firstChoice) firstPlaceVotes[firstChoice]++] *)
Definition countVote (o : JS.object) (vote : list string) : JS.object :=
  match firstChoice vote with
  | Some c => if JS.truthy c then JS.incrProp o c else o
  | None => o
  end.

Definition firstPlaceVotes : JS.object :=
  fold_left countVote allVotes initialVotes.

Definition totalVotes : nat := length allVotes.

(** [totalVotes / 2], a division of numbers: no rounding. *)
Definition majorityThreshold : Q := (inject_Z (Z.of_nat totalVotes) / 2)%Q.

(** [firstPlaceVotes[option] > majorityThreshold] *)
Definition exceedsThreshold (option : string) : bool :=
  match JS.getProp firstPlaceVotes option with
  | Some n => negb (Qle_bool (inject_Z (Z.of_nat n)) majorityThreshold)
  | None => false
  end.

(** The variable [winner] after the [for] loop; [None] is [null]. *)
Definition winner : option string := JS.find exceedsThreshold currentOptions.

(** The candidate returned by [if (winner) return winner], if any. *)
Definition majorityWinner : option string :=
  match winner with
  | Some w => if JS.truthy w then Some w else None
  | None => None
  end.

Definition cmpCount (e1 e2 : string * nat) : Z :=
  (Z.of_nat (snd e1) - Z.of_nat (snd e2))%Z.

Definition sortedVotes : list (string * nat) :=
  JS.sort cmpCount (JS.entries firstPlaceVotes).

(** [sortedVotes[0][1]]; [None] when [sortedVotes[0]] is [undefined], where
    the property access throws a [TypeError]. *)
Definition lowestVoteCount : option nat :=
  match sortedVotes with
  | [] => None
  | e :: _ => Some (snd e)
  end.

Definition eliminatedOptions (lowest : nat) : list string :=
  map fst (filter (fun e => snd e =? lowest) sortedVotes).

Definition remainingOptions (lowest : nat) : list string :=
  filter (fun option => negb (JS.includes (eliminatedOptions lowest) option))
         currentOptions.

(** One pass through the body of [while (true)]. *)
Definition round : step :=
  match currentOptions with
  | [only] => Done (Returns only)
  | _ =>
      match majorityWinner with
      | Some w => Done (Returns w)
      | None =>
          match lowestVoteCount with
          | None => Done ThrowsTypeError
          | Some lowest =>
              match remainingOptions lowest with
              | [] =>
                  Done (match eliminatedOptions lowest with
                        | e :: _ => Returns e
                        | [] => ReturnsUndefined
                        end)
              | next => Continue next
              end
          end
      end
  end.
End Round.

(** [while (true) { ... }], run for at most [fuel] passes; [None] when the
    passes allowed did not reach a [return] or a [throw]. *)
Fixpoint loop (fuel : nat) (allVotes : list (list string))
         (currentOptions : list string) : option completion :=
  match fuel with
  | 0 => None
  | S fuel' =>
      match round allVotes currentOptions with
      | Done c => Some c
      | Continue next => loop fuel' allVotes next
      end
  end.

Definition calculateRankedChoiceWinner (fuel : nat) (options : list string)
           (allVotes : list (list string)) : option completion :=
  if length allVotes =? 0 then Some (Returns sentinel)
  else loop fuel allVotes options.

(** ** Notions used to state and prove the properties *)

(** Whether a pass over [currentOptions] counts [vote] for the candidate [k]:
    [k] is the first choice found, it is truthy, and the increment is not the
    one on [__proto__]. *)
Definition countedFor (currentOptions : list string) (k : string)
           (vote : list string) : bool :=
  match firstChoice currentOptions vote with
  | Some c => String.eqb c k && JS.truthy c && negb (String.eqb c JS.protoKey)
  | None => false
  end.

Definition votesFor (currentOptions : list string) (k : string)
           (allVotes : list (list string)) : nat :=
  length (filter (countedFor currentOptions k) allVotes).

(** The passes the loop makes before it completes. *)
Fixpoint passes (fuel : nat) (allVotes : list (list string))
         (currentOptions : list string) : nat :=
  match fuel with
  | 0 => 0
  | S fuel' =>
      match round allVotes currentOptions with
      | Done _ => 1
      | Continue next => S (passes fuel' allVotes next)
      end
  end.

(** The ways a pass can end. *)
Inductive roundEnds (allVotes : list (list string)) (currentOptions : list string)
  : step -> Prop :=
| ends_single c :
    currentOptions = [c] ->
    roundEnds allVotes currentOptions (Done (Returns c))
| ends_majority w :
    length currentOptions <> 1 ->
    majorityWinner allVotes currentOptions = Some w ->
    roundEnds allVotes currentOptions (Done (Returns w))
| ends_throw :
    length currentOptions <> 1 ->
    majorityWinner allVotes currentOptions = None ->
    lowestVoteCount allVotes currentOptions = None ->
    roundEnds allVotes currentOptions (Done ThrowsTypeError)
| ends_fallback lowest w r :
    length currentOptions <> 1 ->
    majorityWinner allVotes currentOptions = None ->
    lowestVoteCount allVotes currentOptions = Some lowest ->
    remainingOptions allVotes currentOptions lowest = [] ->
    eliminatedOptions allVotes currentOptions lowest = w :: r ->
    roundEnds allVotes currentOptions (Done (Returns w))
| ends_continue lowest :
    length currentOptions <> 1 ->
    majorityWinner allVotes currentOptions = None ->
    lowestVoteCount allVotes currentOptions = Some lowest ->
    remainingOptions allVotes currentOptions lowest <> [] ->
    roundEnds allVotes currentOptions
              (Continue (remainingOptions allVotes currentOptions lowest)).

(** ** The resolver, pass after pass *)

(** The working sets the loop goes through: [reaches allVotes cur final]
    when the passes started on [cur] loop back until the working set is
    [final]. *)
Inductive reaches (allVotes : list (list string))
  : list string -> list string -> Prop :=
| reaches_here cur : reaches allVotes cur cur
| reaches_next cur next final :
    round allVotes cur = Continue next ->
    reaches allVotes next final ->
    reaches allVotes cur final.

(** A pass that ends in the fallback: no majority, and the elimination
    leaves nobody. *)
Definition tiedOut (allVotes : list (list string))
           (currentOptions : list string) : Prop :=
  exists lowest,
    length currentOptions <> 1 /\
    majorityWinner allVotes currentOptions = None /\
    lowestVoteCount allVotes currentOptions = Some lowest /\
    remainingOptions allVotes currentOptions lowest = [].

(** The sum of the counts held by a tally object. *)
Definition tallySum (o : JS.object) : nat := list_sum (map snd o).

(** Whether a pass over [currentOptions] counts [vote] at all: it has a first
    choice, and that choice is neither falsy nor [__proto__]. *)
Definition counted (currentOptions : list string) (vote : list string) : bool :=
  match firstChoice currentOptions vote with
  | Some c => JS.truthy c && negb (String.eqb c JS.protoKey)
  | None => false
  end.

(** Whether the first choice of [vote] over [currentOptions] is [c]. *)
Definition choosesFirst (currentOptions : list string) (c : string)
           (vote : list string) : bool :=
  match firstChoice currentOptions vote with
  | Some x => String.eqb x c
  | None => false
  end.

(** ** The pages around the resolver *)

(** A value held by the arrays of the pages: a string, or [undefined]. *)
Inductive value : Type :=
| Str (s : string)
| Undefined.

Module JSArray.

(** [a[i]] for an index that is a natural number: at or past the length it
    reads [undefined]. *)
Definition get (a : list value) (i : nat) : value := nth i a Undefined.

(** [a[i] = v]: at or past the length the assignment extends the array, and
    the indices it skips read [undefined] (a hole and [undefined] are not
    told apart here: the handlers only read by index). *)
Definition set (a : list value) (i : nat) (v : value) : list value :=
  if i <? length a then firstn i a ++ v :: skipn (S i) a
  else a ++ repeat Undefined (i - length a) ++ [v].

End JSArray.

Definition cmpKey {A : Type} (e1 e2 : string * A) : Z :=
  (Z.of_N (JS.indexOf (fst e1)) - Z.of_N (JS.indexOf (fst e2)))%Z.

(** [Object.values(o)] for the own properties [o], given in the order in
    which they were created: the values of the array-index keys in ascending
    numeric order, then the others in creation order. *)
Definition objectValues {A : Type} (o : list (string * A)) : list A :=
  map snd (JS.sort cmpKey (filter (fun e => JS.isIndex (fst e)) o)
           ++ filter (fun e => negb (JS.isIndex (fst e))) o).

(** The session document, as [handleCreateSession] creates it (src/App.js,
    lines 95-102); [votes] maps a participant to the ballot stored for them,
    [winner] is [null] until the voting is closed. *)
Module Session.
Record t : Type := make {
  title : string;
  options : list string;
  votes : list (string * list string);
  host : string;
  isVotingClosed : bool;
  winner : option string
}.
End Session.

(** The page where the host adds the options (src/App.js, lines 371-406).
    [String.prototype.trim] is a parameter: the handlers only compare its
    result with the empty string and store it.  One call is one run of the
    handler to its end, the page rendered again before the next. *)
Module CreateOptionsPage.
Section Trim.
Variable trim : string -> string.

Record state : Type := make { options : list string; error : string }.

(** [handleAddOption], where [updated] tells whether [updateDoc] resolved. *)
Definition handleAddOption (st : state) (newOption : string) (updated : bool)
  : state :=
  if String.eqb (trim newOption) "" then st
  else if 10 <=? length (options st)
       then make (options st) "You can only add up to 10 options."
       else if updated
            then make (options st ++ [trim newOption]) (error st)
            else make (options st) "Failed to add option.".

(** [handleStartVoting]: the next state, and the page it sets if any. *)
Definition handleStartVoting (st : state) : state * option string :=
  if length (options st) <? 2
  then (make (options st) "You need at least two options to start voting.", None)
  else (st, Some "vote").

(** The options after a run of additions. *)
Definition addAll (st : state) (inputs : list (string * bool)) : state :=
  fold_left (fun st i => handleAddOption st (fst i) (snd i)) inputs st.
End Trim.
End CreateOptionsPage.

(** The page where a participant ranks the options and the host closes the
    voting (src/App.js, lines 492-557). *)
Module VotingPage.

Definition handleMoveUp (options : list value) (index : nat) : list value :=
  if index =? 0 then options
  else
    let newOptions := options in
    let temp := JSArray.get newOptions index in
    let newOptions := JSArray.set newOptions index
                                  (JSArray.get newOptions (index - 1)) in
    JSArray.set newOptions (index - 1) temp.

Definition handleMoveDown (options : list value) (index : nat) : list value :=
  if (Z.of_nat index =? Z.of_nat (length options) - 1)%Z then options
  else
    let newOptions := options in
    let temp := JSArray.get newOptions index in
    let newOptions := JSArray.set newOptions index
                                  (JSArray.get newOptions (index + 1)) in
    JSArray.set newOptions (index + 1) temp.

(** A click on one of the two arrows of the entry at [index]. *)
Inductive click : Type :=
| Up (index : nat)
| Down (index : nat).

Definition indexOfClick (c : click) : nat :=
  match c with Up i => i | Down i => i end.

Definition handleClick (options : list value) (c : click) : list value :=
  match c with
  | Up i => handleMoveUp options i
  | Down i => handleMoveDown options i
  end.

Definition handleClicks (options : list value) (clicks : list click)
  : list value :=
  fold_left handleClick clicks options.

(** The arrows that are not disabled when [n] entries are shown: the up
    arrow of every entry but the first, the down arrow of every entry but the
    last (the [disabled] attributes of the two buttons). *)
Definition enabled (n : nat) (c : click) : Prop :=
  match c with
  | Up i => 1 <= i /\ i < n
  | Down i => S i < n
  end.

(** The click on the same arrow of the same entry once an entry is put in
    front of the ranking; the up arrow of the first entry, which does nothing,
    is left as it is. *)
Definition shiftClick (c : click) : click :=
  match c with
  | Up 0 => Up 0
  | Up (S i) => Up (S (S i))
  | Down i => Down (S i)
  end.

(** [handleSubmitVote]: the error it sets, or the ballot it asks
    [updateDoc] to store under [votes.userId]. *)
Definition handleSubmitVote (options : list value) : string + list value :=
  if length options =? 0 then inl "There are no options to vote on."
  else inr options.

(** What [handleCloseVoting] does. *)
Inductive closing : Type :=
| Nothing
| SetError (message : string)
| Rejects
| UpdateDoc (isVotingClosed : bool) (winner : value).

(** [handleCloseVoting]: it returns at once without a database or session
    data, sets an error when no ballot is stored, and otherwise asks
    [updateDoc] to close the voting with the winner the resolver returns.
    The resolver is called outside the [try]: when it throws, the handler
    rejects and asks for no update. *)
Definition handleCloseVoting (fuel : nat) (db : bool)
           (sessionData : option Session.t) : option closing :=
  match db, sessionData with
  | true, Some data =>
      let allVotes := objectValues (Session.votes data) in
      if length allVotes =? 0
      then Some (SetError "Cannot close voting with no votes.")
      else
        match calculateRankedChoiceWinner fuel (Session.options data) allVotes with
        | None => None
        | Some (Returns rankedChoiceWinner) =>
            Some (UpdateDoc true (Str rankedChoiceWinner))
        | Some ReturnsUndefined => Some (UpdateDoc true Undefined)
        | Some ThrowsTypeError => Some Rejects
        end
  | _, _ => Some Nothing
  end.

End VotingPage.

(** ** The examples of the specification *)

Example majority_in_round_one :
  calculateRankedChoiceWinner 3 ["A"; "B"; "C"]
    [["A"; "B"; "C"]; ["A"; "C"; "B"]; ["B"; "A"; "C"]] = Some (Returns "A").
Proof. reflexivity. Qed.

Example elimination_and_transfer :
  calculateRankedChoiceWinner 3 ["A"; "B"; "C"]
    [["A"; "B"; "C"]; ["B"; "A"; "C"]; ["C"; "B"; "A"]; ["C"; "A"; "B"]]
  = Some (Returns "C").
Proof. reflexivity. Qed.

Example simultaneous_elimination_fallback :
  calculateRankedChoiceWinner 2 ["A"; "B"] [["A"; "B"]; ["B"; "A"]]
  = Some (Returns "A").
Proof. reflexivity. Qed.

Example single_candidate_wins (c : string) (vote : list string)
        (allVotes : list (list string)) (fuel : nat) :
  calculateRankedChoiceWinner (S fuel) [c] (vote :: allVotes) = Some (Returns c).
Proof. reflexivity. Qed.

Example malformed_ballot_is_counted :
  firstPlaceVotes [["X"; "B"; "B"]; ["A"]; []] ["A"; "B"] = [("A", 1); ("B", 1)].
Proof. reflexivity. Qed.

Example tally_of_half_does_not_win :
  JS.getProp (firstPlaceVotes [["A"; "B"]; ["B"; "A"]] ["A"; "B"]) "A" = Some 1 /\
  majorityWinner [["A"; "B"]; ["B"; "A"]] ["A"; "B"] = None.
Proof. split; reflexivity. Qed.

(** The keys of the tally object that are array indices come first in
    [Object.entries], whatever the order in which they were created. *)
Example entries_order :
  JS.entries [("b", 1); ("10", 2); ("9", 3); ("01", 4); ("a", 5); ("0", 6)]
  = [("0", 6); ("9", 3); ("10", 2); ("b", 1); ("01", 4); ("a", 5)].
Proof. reflexivity. Qed.

(** ** Lists *)

Lemma includes_In (l : list string) (x : string) :
  JS.includes l x = true <-> In x l.
Proof.
  unfold JS.includes. rewrite existsb_exists. split.
  - intros [y [Hy Heq]]. apply String.eqb_eq in Heq. now subst.
  - intros H. exists x. split; [assumption | apply String.eqb_refl].
Qed.

Lemma includes_false (l : list string) (x : string) :
  JS.includes l x = false <-> ~ In x l.
Proof.
  rewrite <- includes_In. destruct (JS.includes l x); split; intuition congruence.
Qed.

Lemma filter_shorter {A : Type} (p : A -> bool) (l : list A) (x : A) :
  In x l -> p x = false -> length (filter p l) < length l.
Proof.
  induction l as [|y l IH]; simpl; [tauto|].
  intros [-> | Hin] Hp.
  - rewrite Hp. pose proof (filter_length_le p l). lia.
  - specialize (IH Hin Hp). destruct (p y); simpl; lia.
Qed.

Lemma filter_split_perm {A : Type} (p : A -> bool) (l : list A) :
  Permutation (filter p l ++ filter (fun x => negb (p x)) l) l.
Proof.
  induction l as [|x l IH]; simpl; [constructor|].
  destruct (p x); simpl.
  - now constructor.
  - symmetry. apply Permutation_cons_app. now symmetry.
Qed.

Lemma filter_all {A : Type} (p : A -> bool) (l : list A) :
  (forall x, In x l -> p x = true) -> filter p l = l.
Proof.
  induction l as [|x l IH]; simpl; intros H; [reflexivity|].
  rewrite (H x (or_introl eq_refl)). f_equal. apply IH. intros; apply H; now right.
Qed.

Lemma filter_none {A : Type} (p : A -> bool) (l : list A) :
  (forall x, In x l -> p x = false) -> filter p l = [].
Proof.
  induction l as [|x l IH]; simpl; intros H; [reflexivity|].
  rewrite (H x (or_introl eq_refl)). apply IH. intros; apply H; now right.
Qed.

Lemma count_occ_filter_le (p : string -> bool) (l : list string) (x : string) :
  count_occ string_dec (filter p l) x <= count_occ string_dec l x.
Proof.
  induction l as [|y l IH]; simpl; [lia|].
  destruct (p y); simpl; destruct (string_dec y x); lia.
Qed.

(** A list with at least two entries and at most one occurrence of [x] holds
    an entry other than [x]. *)
Lemma other_entry (l : list string) (x : string) :
  2 <= length l -> count_occ string_dec l x <= 1 -> exists y, In y l /\ y <> x.
Proof.
  destruct l as [|a [|b l]]; simpl; try lia. intros _ H.
  destruct (string_dec a x) as [->|Ha].
  - destruct (string_dec b x) as [->|Hb]; [lia|]. exists b. auto.
  - exists a. auto.
Qed.

(** ** The stable sort *)

Section SortFacts.
Context {A : Type} (cmp : A -> A -> Z) (key : A -> Z).
Hypothesis cmp_key : forall x y, cmp x y = (key x - key y)%Z.

Lemma insertSorted_perm (x : A) (l : list A) :
  Permutation (JS.insertSorted cmp x l) (x :: l).
Proof.
  induction l as [|y l IH]; simpl; [reflexivity|].
  destruct (cmp x y <=? 0)%Z; [reflexivity|].
  rewrite IH. constructor.
Qed.

Lemma sort_perm (l : list A) : Permutation (JS.sort cmp l) l.
Proof.
  induction l as [|x l IH]; simpl; [constructor|].
  rewrite insertSorted_perm. now constructor.
Qed.

Lemma sort_nil (l : list A) : JS.sort cmp l = [] -> l = [].
Proof.
  intros H. pose proof (sort_perm l) as P. rewrite H in P.
  now apply Permutation_nil in P.
Qed.

Lemma insertSorted_headLeast (x : A) (l : list A) :
  JS.headLeast key l -> JS.headLeast key (JS.insertSorted cmp x l).
Proof.
  destruct l as [|y l]; simpl.
  - intros _ z [<-|[]]. lia.
  - intros H. destruct (cmp x y <=? 0)%Z eqn:E.
    + rewrite cmp_key in E. apply Z.leb_le in E.
      intros z [<-|Hz]; [lia|]. specialize (H z Hz). lia.
    + rewrite cmp_key in E. apply Z.leb_gt in E.
      intros z Hz. simpl in Hz. destruct Hz as [<-|Hz]; [lia|].
      apply (Permutation_in _ (insertSorted_perm x l)) in Hz.
      destruct Hz as [<-|Hz]; [lia|]. apply H. now right.
Qed.

Lemma sort_headLeast (l : list A) : JS.headLeast key (JS.sort cmp l).
Proof.
  induction l as [|x l IH]; simpl; [exact I|].
  now apply insertSorted_headLeast.
Qed.

Lemma sort_head_least (l : list A) (x : A) (r : list A) :
  JS.sort cmp l = x :: r -> forall y, In y l -> (key x <= key y)%Z.
Proof.
  intros H y Hy. pose proof (sort_headLeast l) as HL. rewrite H in HL.
  apply HL. rewrite <- H. apply (Permutation_in _ (Permutation_sym (sort_perm l))).
  assumption.
Qed.

(** Stability: entries with equal keys keep their order. *)
Lemma sort_equal_keys (l : list A) :
  (forall x y, In x l -> In y l -> key x = key y) -> JS.sort cmp l = l.
Proof.
  induction l as [|x l IH]; simpl; intros H; [reflexivity|].
  rewrite IH by (intros; apply H; now right).
  destruct l as [|y l]; simpl; [reflexivity|].
  rewrite cmp_key, (H x y) by (simpl; auto).
  now rewrite Z.sub_diag.
Qed.
End SortFacts.

(** ** The tally object *)

Lemma assoc_Some_In (o : JS.object) (k : string) (v : nat) :
  JS.assoc k o = Some v -> In (k, v) o.
Proof.
  induction o as [|[k' v'] o IH]; simpl; [discriminate|].
  destruct (String.eqb k' k) eqn:E.
  - apply String.eqb_eq in E. intros [= ->]. subst. now left.
  - intros H. right. now apply IH.
Qed.

Lemma assoc_None_keys (o : JS.object) (k : string) :
  JS.assoc k o = None <-> ~ In k (map fst o).
Proof.
  induction o as [|[k' v'] o IH]; simpl; [tauto|].
  destruct (String.eqb k' k) eqn:E.
  - apply String.eqb_eq in E. split; [discriminate | tauto].
  - apply String.eqb_neq in E. rewrite IH. tauto.
Qed.

Lemma assoc_In_NoDup (o : JS.object) (k : string) (v : nat) :
  NoDup (map fst o) -> In (k, v) o -> JS.assoc k o = Some v.
Proof.
  induction o as [|[k' v'] o IH]; simpl; [tauto|].
  intros ND [[= -> ->] | Hin].
  - now rewrite String.eqb_refl.
  - inversion ND as [|? ? Hnot ND']; subst.
    destruct (String.eqb k' k) eqn:E.
    + apply String.eqb_eq in E. subst. exfalso. apply Hnot.
      change k with (fst (k, v)). now apply in_map.
    + now apply IH.
Qed.

Lemma setProp_keys (o : JS.object) (k : string) (v : nat) :
  map fst (JS.setProp o k v) =
  if String.eqb k JS.protoKey then map fst o
  else match JS.assoc k o with
       | Some _ => map fst o
       | None => map fst o ++ [k]
       end.
Proof.
  unfold JS.setProp. destruct (String.eqb k JS.protoKey); [reflexivity|].
  destruct (JS.assoc k o).
  - rewrite map_map. apply map_ext_in. intros e _.
    destruct (String.eqb (fst e) k) eqn:E; [|reflexivity].
    apply String.eqb_eq in E. now rewrite E.
  - now rewrite map_app.
Qed.

Lemma setProp_keys_In (o : JS.object) (k k' : string) (v : nat) :
  In k' (map fst (JS.setProp o k v)) <->
  In k' (map fst o) \/ (k' = k /\ k <> JS.protoKey).
Proof.
  rewrite setProp_keys. destruct (String.eqb k JS.protoKey) eqn:E.
  - apply String.eqb_eq in E. intuition congruence.
  - apply String.eqb_neq in E. destruct (JS.assoc k o) eqn:A.
    + apply assoc_Some_In in A. apply (in_map fst) in A. simpl in A.
      intuition congruence.
    + rewrite in_app_iff. simpl. intuition congruence.
Qed.

Lemma setProp_NoDup (o : JS.object) (k : string) (v : nat) :
  NoDup (map fst o) -> NoDup (map fst (JS.setProp o k v)).
Proof.
  intros ND. rewrite setProp_keys. destruct (String.eqb k JS.protoKey); [assumption|].
  destruct (JS.assoc k o) eqn:A; [assumption|].
  apply assoc_None_keys in A.
  apply NoDup_rev in ND. rewrite <- (rev_involutive (_ ++ _)).
  apply NoDup_rev. rewrite rev_app_distr. simpl. constructor; [|assumption].
  now rewrite <- in_rev.
Qed.

Lemma setProp_zero (o : JS.object) (k : string) :
  Forall (fun e => snd e = 0) o -> Forall (fun e => snd e = 0) (JS.setProp o k 0).
Proof.
  intros H. unfold JS.setProp. destruct (String.eqb k JS.protoKey); [assumption|].
  destruct (JS.assoc k o).
  - apply Forall_map. revert H. apply Forall_impl. intros e He.
    now destruct (String.eqb (fst e) k).
  - apply Forall_app. split; [assumption|]. now constructor.
Qed.

Lemma setProp_no_proto (o : JS.object) (k : string) (v : nat) :
  ~ In JS.protoKey (map fst o) -> ~ In JS.protoKey (map fst (JS.setProp o k v)).
Proof. rewrite setProp_keys_In. intuition congruence. Qed.

(** The head property of an object stays in place. *)
Lemma setProp_head (e : string * nat) (o : JS.object) (k : string) (v : nat) :
  exists e' o', JS.setProp (e :: o) k v = e' :: o' /\ fst e' = fst e.
Proof.
  unfold JS.setProp. destruct (String.eqb k JS.protoKey); [now exists e, o|].
  destruct (JS.assoc k (e :: o)); simpl.
  - eexists _, _. split; [reflexivity|].
    destruct (String.eqb (fst e) k) eqn:E; [|reflexivity].
    apply String.eqb_eq in E. now rewrite E.
  - now eexists _, _.
Qed.

Lemma zeroEach_keys_In (l : list string) (o : JS.object) (k : string) :
  In k (map fst (zeroEach o l)) <->
  In k (map fst o) \/ (In k l /\ k <> JS.protoKey).
Proof.
  unfold zeroEach. revert o. induction l as [|x l IH]; intros o; simpl; [tauto|].
  rewrite IH, setProp_keys_In. intuition (subst; auto).
Qed.

Lemma zeroEach_NoDup (l : list string) (o : JS.object) :
  NoDup (map fst o) -> NoDup (map fst (zeroEach o l)).
Proof.
  unfold zeroEach. revert o. induction l as [|x l IH]; intros o ND; simpl; [assumption|].
  apply IH. now apply setProp_NoDup.
Qed.

Lemma zeroEach_zero (l : list string) (o : JS.object) :
  Forall (fun e => snd e = 0) o -> Forall (fun e => snd e = 0) (zeroEach o l).
Proof.
  unfold zeroEach. revert o. induction l as [|x l IH]; intros o H; simpl; [assumption|].
  apply IH. now apply setProp_zero.
Qed.

Lemma zeroEach_head (l : list string) (e : string * nat) (o : JS.object) :
  exists e' o', zeroEach (e :: o) l = e' :: o' /\ fst e' = fst e.
Proof.
  unfold zeroEach. revert e o. induction l as [|x l IH]; intros e o; simpl.
  - now exists e, o.
  - destruct (setProp_head e o x 0) as [e1 [o1 [-> H1]]].
    destruct (IH e1 o1) as [e2 [o2 [-> H2]]].
    exists e2, o2. split; [reflexivity | congruence].
Qed.

Lemma initialVotes_keys (currentOptions : list string) (k : string) :
  In k (map fst (initialVotes currentOptions)) <->
  In k currentOptions /\ k <> JS.protoKey.
Proof. unfold initialVotes. rewrite zeroEach_keys_In. simpl. tauto. Qed.

Lemma initialVotes_NoDup (currentOptions : list string) :
  NoDup (map fst (initialVotes currentOptions)).
Proof. apply zeroEach_NoDup. constructor. Qed.

Lemma initialVotes_zero (currentOptions : list string) :
  Forall (fun e => snd e = 0) (initialVotes currentOptions).
Proof. apply zeroEach_zero. constructor. Qed.

Lemma initialVotes_head (c : string) (l : list string) :
  c <> JS.protoKey ->
  exists e o, initialVotes (c :: l) = e :: o /\ fst e = c.
Proof.
  intros Hc. unfold initialVotes.
  assert (zeroEach [] (c :: l) = zeroEach [(c, 0)] l) as ->.
  { unfold zeroEach. simpl. unfold JS.setProp at 2.
    apply String.eqb_neq in Hc. now rewrite Hc. }
  destruct (zeroEach_head l (c, 0) []) as [e [o [H1 H2]]]. now exists e, o.
Qed.

Lemma initialVotes_nil (currentOptions : list string) :
  initialVotes currentOptions = [] <->
  forall c, In c currentOptions -> c = JS.protoKey.
Proof.
  split.
  - intros H c Hc. destruct (string_dec c JS.protoKey) as [|N]; [assumption|].
    assert (In c (map fst (initialVotes currentOptions)))
      by now apply initialVotes_keys.
    rewrite H in *. contradiction.
  - intros H. destruct (initialVotes currentOptions) as [|[k v] o] eqn:E; [reflexivity|].
    assert (In k (map fst (initialVotes currentOptions))) as Hk
      by (rewrite E; now left).
    apply initialVotes_keys in Hk. destruct Hk as [Hk N]. now apply H in Hk.
Qed.

(** ** Counting the ballots *)

Lemma incrProp_keys (o : JS.object) (k : string) :
  map fst (JS.incrProp o k) = map fst o.
Proof.
  unfold JS.incrProp. destruct (String.eqb k JS.protoKey); [reflexivity|].
  rewrite map_map. apply map_ext. intros e. now destruct (String.eqb (fst e) k).
Qed.

(** A ballot adds one to the count of the candidate it is counted for and
    leaves every other property as it is. *)
Lemma countVote_map (currentOptions : list string) (o : JS.object)
      (vote : list string) :
  countVote currentOptions o vote =
  map (fun e => (fst e,
                 snd e + if countedFor currentOptions (fst e) vote then 1 else 0))
      o.
Proof.
  unfold countVote, countedFor.
  assert (forall o : JS.object, map (fun e => (fst e, snd e + 0)) o = o) as Hid.
  { intros o'. rewrite <- (map_id o') at 2. apply map_ext.
    intros [k v]. simpl. f_equal. lia. }
  destruct (firstChoice currentOptions vote) as [c|]; [|now rewrite Hid].
  destruct (JS.truthy c); simpl.
  - unfold JS.incrProp. destruct (String.eqb c JS.protoKey); simpl.
    + rewrite <- (Hid o) at 1. apply map_ext. intros e.
      now rewrite andb_false_r.
    + apply map_ext. intros [k v]. simpl. rewrite !andb_true_r.
      rewrite (String.eqb_sym k c).
      destruct (String.eqb c k); f_equal; lia.
  - rewrite <- (Hid o) at 1. apply map_ext. intros e.
    now rewrite andb_false_r.
Qed.

Lemma fold_countVote (currentOptions : list string)
      (allVotes : list (list string)) (o : JS.object) :
  fold_left (countVote currentOptions) allVotes o =
  map (fun e => (fst e, snd e + votesFor currentOptions (fst e) allVotes)) o.
Proof.
  revert o. induction allVotes as [|v vs IH]; intros o; simpl.
  - rewrite <- (map_id o) at 1. apply map_ext. intros [k n].
    unfold votesFor. simpl. f_equal. lia.
  - rewrite IH, countVote_map, map_map. apply map_ext. intros [k n].
    unfold votesFor. simpl.
    destruct (countedFor currentOptions k v); simpl; f_equal; lia.
Qed.

Lemma firstPlaceVotes_map (allVotes : list (list string))
      (currentOptions : list string) :
  firstPlaceVotes allVotes currentOptions =
  map (fun e => (fst e, votesFor currentOptions (fst e) allVotes))
      (initialVotes currentOptions).
Proof.
  unfold firstPlaceVotes. rewrite fold_countVote.
  apply map_ext_in. intros e He.
  pose proof (initialVotes_zero currentOptions) as Z.
  rewrite Forall_forall in Z. now rewrite (Z e He).
Qed.

Lemma firstPlaceVotes_keys (allVotes : list (list string))
      (currentOptions : list string) :
  map fst (firstPlaceVotes allVotes currentOptions) =
  map fst (initialVotes currentOptions).
Proof. rewrite firstPlaceVotes_map, map_map. reflexivity. Qed.

Lemma assoc_map_values (f : string -> nat) (o : JS.object) (k : string) :
  JS.assoc k (map (fun e => (fst e, f (fst e))) o) =
  match JS.assoc k o with Some _ => Some (f k) | None => None end.
Proof.
  induction o as [|[k' v] o IH]; simpl; [reflexivity|].
  destruct (String.eqb k' k) eqn:E; [|assumption].
  apply String.eqb_eq in E. now subst.
Qed.

(** The number read by [firstPlaceVotes[c]]: the count of the ballots counted
    for [c] when [c] is a candidate of the pass other than [__proto__], and
    not a number otherwise. *)
Lemma tally_votesFor (allVotes : list (list string))
      (currentOptions : list string) (c : string) :
  JS.getProp (firstPlaceVotes allVotes currentOptions) c =
  if JS.includes currentOptions c && negb (String.eqb c JS.protoKey)
  then Some (votesFor currentOptions c allVotes) else None.
Proof.
  unfold JS.getProp. destruct (String.eqb c JS.protoKey) eqn:P.
  - now rewrite andb_false_r.
  - rewrite andb_true_r, firstPlaceVotes_map.
    rewrite (assoc_map_values (fun k => votesFor currentOptions k allVotes)).
    apply String.eqb_neq in P.
    destruct (JS.includes currentOptions c) eqn:I.
    + apply includes_In in I.
      destruct (JS.assoc c (initialVotes currentOptions)) eqn:A; [reflexivity|].
      apply assoc_None_keys in A. exfalso. apply A.
      now apply initialVotes_keys.
    + apply includes_false in I.
      destruct (JS.assoc c (initialVotes currentOptions)) eqn:A; [|reflexivity].
      apply assoc_Some_In in A. apply (in_map fst) in A.
      apply initialVotes_keys in A. tauto.
Qed.

Lemma tally_Some (allVotes : list (list string)) (currentOptions : list string)
      (c : string) (n : nat) :
  JS.getProp (firstPlaceVotes allVotes currentOptions) c = Some n <->
  In c currentOptions /\ c <> JS.protoKey /\ n = votesFor currentOptions c allVotes.
Proof.
  rewrite tally_votesFor, <- (includes_In currentOptions c), <- String.eqb_neq.
  destruct (JS.includes currentOptions c), (String.eqb c JS.protoKey); simpl;
    (split; [intros [= <-]; auto | intros [? [? ?]]; congruence]).
Qed.

(** The key incremented by a ballot holds a count: it was initialised. *)
Lemma firstChoice_has_tally (allVotes : list (list string))
      (currentOptions vote : list string) (c : string) :
  firstChoice currentOptions vote = Some c -> c <> JS.protoKey ->
  exists n, JS.getProp (firstPlaceVotes allVotes currentOptions) c = Some n.
Proof.
  intros H P. apply find_some in H. destruct H as [_ H].
  apply includes_In in H. eexists. apply tally_Some. eauto.
Qed.

(** The entries of the tally object, as a property of its keys. *)
Lemma firstPlaceVotes_In (allVotes : list (list string))
      (currentOptions : list string) (k : string) (n : nat) :
  In (k, n) (firstPlaceVotes allVotes currentOptions) <->
  JS.getProp (firstPlaceVotes allVotes currentOptions) k = Some n.
Proof.
  assert (NoDup (map fst (firstPlaceVotes allVotes currentOptions))) as ND
    by (rewrite firstPlaceVotes_keys; apply initialVotes_NoDup).
  assert (~ In JS.protoKey (map fst (firstPlaceVotes allVotes currentOptions))) as NP
    by (rewrite firstPlaceVotes_keys, initialVotes_keys; tauto).
  unfold JS.getProp. split.
  - intros H. destruct (String.eqb k JS.protoKey) eqn:P.
    + apply String.eqb_eq in P. subst. exfalso. apply NP.
      change JS.protoKey with (fst (JS.protoKey, n)). now apply in_map.
    + now apply assoc_In_NoDup.
  - destruct (String.eqb k JS.protoKey); [discriminate|]. apply assoc_Some_In.
Qed.

(** Each ballot is counted for at most one candidate. *)
Lemma votesFor_disjoint (currentOptions : list string) (c1 c2 : string)
      (allVotes : list (list string)) :
  c1 <> c2 ->
  votesFor currentOptions c1 allVotes + votesFor currentOptions c2 allVotes
  <= length allVotes.
Proof.
  intros N. unfold votesFor. induction allVotes as [|v vs IH]; simpl; [lia|].
  assert (countedFor currentOptions c1 v = true ->
          countedFor currentOptions c2 v = true -> False) as Hx.
  { unfold countedFor. destruct (firstChoice currentOptions v) as [c|]; [|discriminate].
    intros H1 H2. apply andb_prop in H1, H2. destruct H1 as [H1 _], H2 as [H2 _].
    apply andb_prop in H1, H2. destruct H1 as [H1 _], H2 as [H2 _].
    apply String.eqb_eq in H1, H2. congruence. }
  destruct (countedFor currentOptions c1 v), (countedFor currentOptions c2 v);
    simpl; first [lia | exfalso; now apply Hx].
Qed.

Lemma votesFor_le (currentOptions : list string) (c : string)
      (allVotes : list (list string)) :
  votesFor currentOptions c allVotes <= length allVotes.
Proof. unfold votesFor. apply filter_length_le. Qed.

(** The empty identifier is falsy: no ballot is counted for it. *)
Lemma votesFor_empty (currentOptions : list string)
      (allVotes : list (list string)) :
  votesFor currentOptions "" allVotes = 0.
Proof.
  unfold votesFor. rewrite filter_none; [reflexivity|].
  intros v _. unfold countedFor. destruct (firstChoice currentOptions v) as [c|]; [|reflexivity].
  destruct (String.eqb c "") eqn:E; [|reflexivity].
  apply String.eqb_eq in E. subst. reflexivity.
Qed.

Lemma votesFor_Permutation (currentOptions : list string) (c : string)
      (allVotes allVotes' : list (list string)) :
  Permutation allVotes allVotes' ->
  votesFor currentOptions c allVotes = votesFor currentOptions c allVotes'.
Proof.
  intros P. unfold votesFor. induction P; simpl.
  - reflexivity.
  - destruct (countedFor currentOptions c x); simpl; congruence.
  - destruct (countedFor currentOptions c x), (countedFor currentOptions c y);
      reflexivity.
  - congruence.
Qed.

(** ** The majority check *)

(** Exceeding half of the ballots, in numbers without rounding, is having
    more than half of them twice over. *)
Lemma exceeds_half (n total : nat) :
  (inject_Z (Z.of_nat total) / 2 < inject_Z (Z.of_nat n))%Q <-> total < 2 * n.
Proof.
  unfold Qlt, Qdiv, Qmult, Qinv, inject_Z. simpl. lia.
Qed.

Lemma exceeds_half_bool (n total : nat) :
  negb (Qle_bool (inject_Z (Z.of_nat n)) (inject_Z (Z.of_nat total) / 2)) = true
  <-> total < 2 * n.
Proof.
  rewrite negb_true_iff, <- not_true_iff_false, Qle_bool_iff, <- exceeds_half.
  split; [apply Qnot_le_lt | apply Qlt_not_le].
Qed.

Lemma exceedsThreshold_spec (allVotes : list (list string))
      (currentOptions : list string) (c : string) :
  exceedsThreshold allVotes currentOptions c = true <->
  exists n, JS.getProp (firstPlaceVotes allVotes currentOptions) c = Some n
            /\ length allVotes < 2 * n.
Proof.
  unfold exceedsThreshold, majorityThreshold, totalVotes.
  destruct (JS.getProp (firstPlaceVotes allVotes currentOptions) c) as [n|].
  - rewrite exceeds_half_bool. split.
    + intros H. now exists n.
    + intros [m [[= <-] H]]. assumption.
  - split; [discriminate | intros [m [H _]]; discriminate].
Qed.

(** At most one candidate exceeds the threshold in a pass. *)
Lemma exceedsThreshold_unique (allVotes : list (list string))
      (currentOptions : list string) (c1 c2 : string) :
  exceedsThreshold allVotes currentOptions c1 = true ->
  exceedsThreshold allVotes currentOptions c2 = true -> c1 = c2.
Proof.
  rewrite !exceedsThreshold_spec. intros [n1 [T1 H1]] [n2 [T2 H2]].
  apply tally_Some in T1, T2. destruct T1 as [_ [_ ->]], T2 as [_ [_ ->]].
  destruct (string_dec c1 c2) as [|N]; [assumption|].
  pose proof (votesFor_disjoint currentOptions c1 c2 allVotes N). lia.
Qed.

(** A candidate that exceeds the threshold is truthy, so [if (winner)]
    never discards the candidate found by the scan. *)
Lemma exceedsThreshold_truthy (allVotes : list (list string))
      (currentOptions : list string) (c : string) :
  exceedsThreshold allVotes currentOptions c = true -> JS.truthy c = true.
Proof.
  rewrite exceedsThreshold_spec. intros [n [T H]].
  apply tally_Some in T. destruct T as [_ [_ ->]].
  unfold JS.truthy. destruct (String.eqb c "") eqn:E; [|reflexivity].
  apply String.eqb_eq in E. subst. rewrite votesFor_empty in H. lia.
Qed.

Lemma majorityWinner_spec (allVotes : list (list string))
      (currentOptions : list string) (c : string) :
  majorityWinner allVotes currentOptions = Some c <->
  In c currentOptions /\ exceedsThreshold allVotes currentOptions c = true.
Proof.
  unfold majorityWinner, winner, JS.find. split.
  - destruct (find _ currentOptions) as [w|] eqn:F; [|discriminate].
    apply find_some in F. destruct (JS.truthy w); [|discriminate].
    now intros [= <-].
  - intros [Hin Hex].
    destruct (find (exceedsThreshold allVotes currentOptions) currentOptions)
      as [w|] eqn:F.
    + apply find_some in F. destruct F as [_ F].
      rewrite (exceedsThreshold_truthy _ _ _ F).
      f_equal. eapply exceedsThreshold_unique; eassumption.
    + apply find_none with (x := c) in F; [congruence | assumption].
Qed.

Lemma majorityWinner_None (allVotes : list (list string))
      (currentOptions : list string) :
  majorityWinner allVotes currentOptions = None <->
  forall c, In c currentOptions ->
            exceedsThreshold allVotes currentOptions c = false.
Proof.
  split.
  - intros H c Hc.
    destruct (exceedsThreshold allVotes currentOptions c) eqn:E; [|reflexivity].
    assert (majorityWinner allVotes currentOptions = Some c)
      by (apply majorityWinner_spec; auto). congruence.
  - intros H. destruct (majorityWinner allVotes currentOptions) as [w|] eqn:E;
      [|reflexivity].
    apply majorityWinner_spec in E. destruct E as [Hin Hex].
    rewrite (H w Hin) in Hex. discriminate.
Qed.

(** The tallies depend on the candidates of the pass, not on their order. *)
Lemma firstChoice_same_members (l l' vote : list string) :
  (forall x, In x l <-> In x l') -> firstChoice l vote = firstChoice l' vote.
Proof.
  intros H. unfold firstChoice, JS.find. induction vote as [|x v IH]; simpl; [reflexivity|].
  assert (JS.includes l x = JS.includes l' x) as ->.
  { destruct (JS.includes l' x) eqn:E.
    - apply includes_In. apply H. now apply includes_In.
    - apply includes_false. rewrite H. now apply includes_false. }
  now rewrite IH.
Qed.

Lemma votesFor_same_members (l l' : list string) (c : string)
      (allVotes : list (list string)) :
  (forall x, In x l <-> In x l') -> votesFor l c allVotes = votesFor l' c allVotes.
Proof.
  intros H. unfold votesFor. f_equal. apply filter_ext. intros v.
  unfold countedFor. now rewrite (firstChoice_same_members l l' v H).
Qed.

Lemma exceedsThreshold_same_members (allVotes : list (list string))
      (l l' : list string) (c : string) :
  (forall x, In x l <-> In x l') ->
  exceedsThreshold allVotes l c = exceedsThreshold allVotes l' c.
Proof.
  intros H. unfold exceedsThreshold. rewrite !tally_votesFor.
  rewrite (votesFor_same_members l l' c allVotes H).
  assert (JS.includes l c = JS.includes l' c) as ->; [|reflexivity].
  destruct (JS.includes l' c) eqn:E.
  - apply includes_In. apply H. now apply includes_In.
  - apply includes_false. rewrite H. now apply includes_false.
Qed.

Lemma majorityWinner_same_members (allVotes : list (list string))
      (l l' : list string) :
  (forall x, In x l <-> In x l') ->
  majorityWinner allVotes l = majorityWinner allVotes l'.
Proof.
  intros H.
  destruct (majorityWinner allVotes l') as [w|] eqn:E.
  - apply majorityWinner_spec in E. apply majorityWinner_spec.
    rewrite (exceedsThreshold_same_members allVotes l l' w H). now rewrite H.
  - rewrite majorityWinner_None in *. intros c Hc.
    rewrite (exceedsThreshold_same_members allVotes l l' c H).
    apply E. now apply H.
Qed.

(** ** The order of [Object.entries] *)

Lemma cmpIndex_key (e1 e2 : string * nat) :
  JS.cmpIndex e1 e2 =
  (Z.of_N (JS.indexOf (fst e1)) - Z.of_N (JS.indexOf (fst e2)))%Z.
Proof. reflexivity. Qed.

Lemma entries_perm (o : JS.object) : Permutation (JS.entries o) o.
Proof.
  unfold JS.entries.
  rewrite (sort_perm JS.cmpIndex).
  apply (filter_split_perm (fun e => JS.isIndex (fst e))).
Qed.

Lemma entries_nil (o : JS.object) : JS.entries o = [] <-> o = [].
Proof.
  split.
  - intros H. pose proof (entries_perm o) as P. rewrite H in P.
    now apply Permutation_nil.
  - now intros ->.
Qed.

(** Without array indices among the keys, the entries come in creation order. *)
Lemma entries_no_index (o : JS.object) :
  (forall e, In e o -> JS.isIndex (fst e) = false) -> JS.entries o = o.
Proof.
  intros H. unfold JS.entries.
  rewrite filter_none by assumption. simpl.
  apply filter_all. intros e He. now rewrite (H e He).
Qed.

(** With an array index among the keys, the first entry is the least index. *)
Lemma entries_index_first (o : JS.object) (e0 : string * nat) :
  In e0 o -> JS.isIndex (fst e0) = true ->
  exists e r, JS.entries o = e :: r /\ JS.isIndex (fst e) = true /\
              forall e', In e' o -> JS.isIndex (fst e') = true ->
                         (JS.indexOf (fst e) <= JS.indexOf (fst e'))%N.
Proof.
  intros Hin Hidx. unfold JS.entries.
  set (ix := filter (fun e => JS.isIndex (fst e)) o).
  assert (In e0 ix) as H0 by (apply filter_In; auto).
  destruct (JS.sort JS.cmpIndex ix) as [|e r] eqn:S.
  - apply sort_nil in S. rewrite S in H0. contradiction.
  - exists e, (r ++ filter (fun e => negb (JS.isIndex (fst e))) o).
    split; [reflexivity|].
    assert (In e ix) as He.
    { apply (Permutation_in _ (sort_perm JS.cmpIndex ix)). rewrite S. now left. }
    apply filter_In in He. split; [tauto|].
    intros e' He' Hi'.
    pose proof (sort_head_least JS.cmpIndex _ cmpIndex_key ix e r S e') as L.
    assert (In e' ix) as Hx by (apply filter_In; auto).
    specialize (L Hx). cbv beta in L. lia.
Qed.

(** ** The elimination step *)

Lemma cmpCount_key (e1 e2 : string * nat) :
  cmpCount e1 e2 = (Z.of_nat (snd e1) - Z.of_nat (snd e2))%Z.
Proof. reflexivity. Qed.

Lemma sortedVotes_perm (allVotes : list (list string))
      (currentOptions : list string) :
  Permutation (sortedVotes allVotes currentOptions)
              (firstPlaceVotes allVotes currentOptions).
Proof.
  unfold sortedVotes. rewrite (sort_perm cmpCount). apply entries_perm.
Qed.

Lemma sortedVotes_In (allVotes : list (list string))
      (currentOptions : list string) (k : string) (n : nat) :
  In (k, n) (sortedVotes allVotes currentOptions) <->
  JS.getProp (firstPlaceVotes allVotes currentOptions) k = Some n.
Proof.
  rewrite <- firstPlaceVotes_In. split; apply Permutation_in;
    [| symmetry]; apply sortedVotes_perm.
Qed.

(** [sortedVotes[0]] is [undefined] exactly when no candidate of the pass
    other than [__proto__] is left. *)
Lemma lowestVoteCount_None (allVotes : list (list string))
      (currentOptions : list string) :
  lowestVoteCount allVotes currentOptions = None <->
  forall c, In c currentOptions -> c = JS.protoKey.
Proof.
  rewrite <- initialVotes_nil. unfold lowestVoteCount.
  destruct (sortedVotes allVotes currentOptions) as [|e r] eqn:S.
  - split; [intros _ | reflexivity].
    unfold sortedVotes in S. apply sort_nil in S.
    apply (proj1 (entries_nil _)) in S.
    pose proof (firstPlaceVotes_keys allVotes currentOptions) as K.
    rewrite S in K. simpl in K. symmetry in K. now apply map_eq_nil in K.
  - split; [discriminate|]. intros H. exfalso.
    pose proof (sortedVotes_perm allVotes currentOptions) as P.
    rewrite S, firstPlaceVotes_map, H in P. simpl in P.
    now apply Permutation_sym, Permutation_nil in P.
Qed.

(** The lowest count is a tally of the pass, and no tally is below it. *)
Lemma lowestVoteCount_least (allVotes : list (list string))
      (currentOptions : list string) (lowest : nat) :
  lowestVoteCount allVotes currentOptions = Some lowest ->
  (exists c, In c currentOptions /\
             JS.getProp (firstPlaceVotes allVotes currentOptions) c = Some lowest)
  /\ forall c n, JS.getProp (firstPlaceVotes allVotes currentOptions) c = Some n ->
                 lowest <= n.
Proof.
  unfold lowestVoteCount.
  destruct (sortedVotes allVotes currentOptions) as [|[k m] r] eqn:S; [discriminate|].
  simpl. intros [= <-]. split.
  - exists k. assert (In (k, m) (sortedVotes allVotes currentOptions)) as H
      by (rewrite S; now left).
    apply sortedVotes_In in H. split; [|assumption].
    apply tally_Some in H. tauto.
  - intros c n H. apply firstPlaceVotes_In in H.
    apply (Permutation_in _ (Permutation_sym (entries_perm _))) in H.
    pose proof (sort_head_least cmpCount _ cmpCount_key _ _ _ S (c, n) H) as L.
    simpl in L. lia.
Qed.

Lemma eliminatedOptions_In (allVotes : list (list string))
      (currentOptions : list string) (lowest : nat) (c : string) :
  In c (eliminatedOptions allVotes currentOptions lowest) <->
  JS.getProp (firstPlaceVotes allVotes currentOptions) c = Some lowest.
Proof.
  unfold eliminatedOptions. rewrite in_map_iff. split.
  - intros [[k n] [<- H]]. apply filter_In in H. destruct H as [H E].
    simpl in *. apply Nat.eqb_eq in E. subst. now apply sortedVotes_In.
  - intros H. exists (c, lowest). split; [reflexivity|].
    apply filter_In. split; [now apply sortedVotes_In | apply Nat.eqb_refl].
Qed.

(** [eliminatedOptions[0]] is the key of [sortedVotes[0]]. *)
Lemma eliminatedOptions_head (allVotes : list (list string))
      (currentOptions : list string) (lowest : nat) :
  lowestVoteCount allVotes currentOptions = Some lowest ->
  exists e r r', sortedVotes allVotes currentOptions = e :: r /\
                 eliminatedOptions allVotes currentOptions lowest = fst e :: r'.
Proof.
  unfold lowestVoteCount, eliminatedOptions.
  destruct (sortedVotes allVotes currentOptions) as [|e r]; [discriminate|].
  intros [= <-]. simpl. rewrite Nat.eqb_refl. simpl. now eexists _, _, _.
Qed.

Lemma remainingOptions_In (allVotes : list (list string))
      (currentOptions : list string) (lowest : nat) (c : string) :
  In c (remainingOptions allVotes currentOptions lowest) <->
  In c currentOptions /\
  JS.getProp (firstPlaceVotes allVotes currentOptions) c <> Some lowest.
Proof.
  unfold remainingOptions. rewrite filter_In, negb_true_iff, includes_false.
  now rewrite eliminatedOptions_In.
Qed.

(** The elimination removes at least one candidate. *)
Lemma remainingOptions_shorter (allVotes : list (list string))
      (currentOptions : list string) (lowest : nat) :
  lowestVoteCount allVotes currentOptions = Some lowest ->
  length (remainingOptions allVotes currentOptions lowest)
  < length currentOptions.
Proof.
  intros L. destruct (lowestVoteCount_least _ _ _ L) as [[c [Hin T]] _].
  unfold remainingOptions. apply filter_shorter with (x := c); [assumption|].
  apply negb_false_iff, includes_In. now apply eliminatedOptions_In.
Qed.

(** ** One pass of the loop *)

Lemma round_single (allVotes : list (list string)) (c : string) :
  round allVotes [c] = Done (Returns c).
Proof. reflexivity. Qed.

Lemma round_tally (allVotes : list (list string)) (currentOptions : list string) :
  length currentOptions <> 1 ->
  round allVotes currentOptions =
  match majorityWinner allVotes currentOptions with
  | Some w => Done (Returns w)
  | None =>
      match lowestVoteCount allVotes currentOptions with
      | None => Done ThrowsTypeError
      | Some lowest =>
          match remainingOptions allVotes currentOptions lowest with
          | [] =>
              Done (match eliminatedOptions allVotes currentOptions lowest with
                    | e :: _ => Returns e
                    | [] => ReturnsUndefined
                    end)
          | next => Continue next
          end
      end
  end.
Proof.
  destruct currentOptions as [|a [|b l]]; simpl; [reflexivity | lia | reflexivity].
Qed.

Lemma round_ends (allVotes : list (list string)) (currentOptions : list string) :
  roundEnds allVotes currentOptions (round allVotes currentOptions).
Proof.
  destruct (Nat.eq_dec (length currentOptions) 1) as [E|N].
  - destruct currentOptions as [|c [|b l]]; try discriminate.
    now apply ends_single.
  - rewrite (round_tally _ _ N).
    destruct (majorityWinner allVotes currentOptions) as [w|] eqn:M.
    + now apply ends_majority.
    + destruct (lowestVoteCount allVotes currentOptions) as [lowest|] eqn:L.
      * destruct (remainingOptions allVotes currentOptions lowest) as [|x next] eqn:R.
        -- destruct (eliminatedOptions_head _ _ _ L) as [e [r [r' [_ El]]]].
           rewrite El. now apply ends_fallback with (lowest := lowest) (r := r').
        -- rewrite <- R. apply ends_continue; try assumption. congruence.
      * now apply ends_throw.
Qed.

(** A pass never returns [undefined], and what it returns is a candidate of
    the pass. *)
Lemma round_Returns_In (allVotes : list (list string))
      (currentOptions : list string) (w : string) :
  round allVotes currentOptions = Done (Returns w) -> In w currentOptions.
Proof.
  intros H. pose proof (round_ends allVotes currentOptions) as E.
  rewrite H in E. inversion E as [c Hc | w' _ M | | lowest w' r _ _ L R El |]; subst.
  - now left.
  - now apply majorityWinner_spec in M.
  - assert (In w (eliminatedOptions allVotes currentOptions lowest)) as Hw
      by (rewrite El; now left).
    apply eliminatedOptions_In, tally_Some in Hw. tauto.
Qed.

Lemma round_not_undefined (allVotes : list (list string))
      (currentOptions : list string) :
  round allVotes currentOptions <> Done ReturnsUndefined.
Proof.
  intros H. pose proof (round_ends allVotes currentOptions) as E.
  rewrite H in E. inversion E.
Qed.

(** A pass throws exactly when it is given no candidate, or several and all
    of them [__proto__]. *)
Lemma round_Throws (allVotes : list (list string))
      (currentOptions : list string) :
  round allVotes currentOptions = Done ThrowsTypeError <->
  length currentOptions <> 1 /\
  forall c, In c currentOptions -> c = JS.protoKey.
Proof.
  split.
  - intros H. pose proof (round_ends allVotes currentOptions) as E.
    rewrite H in E. inversion E as [| | N M L | |]; subst.
    split; [assumption|]. now apply (proj1 (lowestVoteCount_None allVotes _)).
  - intros [N A]. rewrite (round_tally _ _ N).
    assert (majorityWinner allVotes currentOptions = None) as ->.
    { apply majorityWinner_None. intros c Hc.
      destruct (exceedsThreshold allVotes currentOptions c) eqn:X; [|reflexivity].
      apply exceedsThreshold_spec in X. destruct X as [n [T _]].
      apply tally_Some in T. destruct T as [_ [P _]]. now apply A in Hc. }
    apply (proj2 (lowestVoteCount_None allVotes _)) in A. now rewrite A.
Qed.

(** A pass that loops back has removed at least one candidate and kept at
    least one. *)
Lemma round_Continue (allVotes : list (list string))
      (currentOptions next : list string) :
  round allVotes currentOptions = Continue next ->
  next <> [] /\ length next < length currentOptions /\
  (forall c, In c next -> In c currentOptions) /\
  count_occ string_dec next JS.protoKey
  <= count_occ string_dec currentOptions JS.protoKey.
Proof.
  intros H. pose proof (round_ends allVotes currentOptions) as E.
  rewrite H in E. inversion E as [| | | | lowest N M L R Eq]; subst.
  split; [assumption|]. split; [now apply remainingOptions_shorter|].
  split.
  - intros c Hc. apply remainingOptions_In in Hc. tauto.
  - apply count_occ_filter_le.
Qed.

(** ** The loop *)

Lemma loop_more_fuel (allVotes : list (list string)) (fuel fuel' : nat)
      (currentOptions : list string) (c : completion) :
  loop fuel allVotes currentOptions = Some c -> fuel <= fuel' ->
  loop fuel' allVotes currentOptions = Some c.
Proof.
  revert fuel' currentOptions.
  induction fuel as [|fuel IH]; intros fuel' cur; simpl; [discriminate|].
  intros H Hle. destruct fuel' as [|fuel']; [lia|]. simpl.
  destruct (round allVotes cur) as [d|next]; [assumption|].
  apply IH; [assumption | lia].
Qed.

(** The loop completes within as many passes as it has candidates. *)
Lemma loop_completes (allVotes : list (list string)) (fuel : nat)
      (currentOptions : list string) :
  1 <= fuel -> length currentOptions <= fuel ->
  exists c, loop fuel allVotes currentOptions = Some c /\
            passes fuel allVotes currentOptions <= Nat.max 1 (length currentOptions).
Proof.
  revert currentOptions.
  induction fuel as [|fuel IH]; intros cur H1 Hlen; [lia|]. cbn [loop passes].
  destruct (round allVotes cur) as [d|next] eqn:R.
  - exists d. split; [reflexivity | lia].
  - apply round_Continue in R. destruct R as [Hne [Hlt _]].
    assert (1 <= length next) by (destruct next; [congruence | simpl; lia]).
    destruct (IH next) as [c [Hc Hp]]; [lia | lia |].
    exists c. split; [assumption | lia].
Qed.

(** From a non-empty working set holding [__proto__] at most once, the loop
    returns one of the candidates of the working set. *)
Lemma loop_returns (allVotes : list (list string)) (fuel : nat)
      (currentOptions : list string) :
  currentOptions <> [] ->
  count_occ string_dec currentOptions JS.protoKey <= 1 ->
  length currentOptions <= fuel ->
  exists w, loop fuel allVotes currentOptions = Some (Returns w) /\
            In w currentOptions.
Proof.
  revert currentOptions.
  induction fuel as [|fuel IH]; intros cur Hne Hp Hlen.
  - destruct cur; [congruence | simpl in Hlen; lia].
  - simpl. destruct (round allVotes cur) as [d|next] eqn:R.
    + destruct d as [w | |].
      * exists w. split; [reflexivity | now apply round_Returns_In in R].
      * now apply round_not_undefined in R.
      * apply round_Throws in R. destruct R as [N A]. exfalso.
        assert (2 <= length cur) as H2
            by (destruct cur as [|a [|b l]]; simpl in *; [congruence | lia | lia]).
        destruct (other_entry cur JS.protoKey H2 Hp) as [y [Hy Ny]].
        now apply A in Hy.
    + apply round_Continue in R. destruct R as [Hn [Hlt [Hin Hc]]].
      destruct (IH next) as [w [Hw Hi]]; [assumption | lia | lia |].
      exists w. split; [assumption | now apply Hin].
Qed.

(** ** What a pass reads of the ballots *)

(** A pass reads the ballots through the tally object and their number. *)
Lemma round_ext (allVotes allVotes' : list (list string))
      (currentOptions : list string) :
  firstPlaceVotes allVotes currentOptions = firstPlaceVotes allVotes' currentOptions ->
  length allVotes = length allVotes' ->
  round allVotes currentOptions = round allVotes' currentOptions.
Proof.
  intros HF HL.
  unfold round, majorityWinner, winner, exceedsThreshold, majorityThreshold,
    totalVotes, lowestVoteCount, remainingOptions, eliminatedOptions, sortedVotes.
  now rewrite HF, HL.
Qed.

Lemma loop_ext (options : list string) (allVotes allVotes' : list (list string)) :
  (forall currentOptions,
      (forall c, In c currentOptions -> In c options) ->
      round allVotes currentOptions = round allVotes' currentOptions) ->
  forall fuel currentOptions,
    (forall c, In c currentOptions -> In c options) ->
    loop fuel allVotes currentOptions = loop fuel allVotes' currentOptions.
Proof.
  intros HR. induction fuel as [|fuel IH]; intros cur Hin; simpl; [reflexivity|].
  rewrite <- (HR cur Hin).
  destruct (round allVotes cur) as [d|next] eqn:R; [reflexivity|].
  apply IH. intros c Hc. apply Hin.
  apply round_Continue in R. now apply R.
Qed.

Lemma firstPlaceVotes_Permutation (allVotes allVotes' : list (list string))
      (currentOptions : list string) :
  Permutation allVotes allVotes' ->
  firstPlaceVotes allVotes currentOptions = firstPlaceVotes allVotes' currentOptions.
Proof.
  intros P. rewrite !firstPlaceVotes_map. apply map_ext. intros e.
  now rewrite (votesFor_Permutation _ _ _ _ P).
Qed.

(** Two ballots with the same first choice are counted alike. *)
Lemma firstPlaceVotes_ballot (currentOptions : list string)
      (before after : list (list string)) (b b' : list string) :
  firstChoice currentOptions b = firstChoice currentOptions b' ->
  firstPlaceVotes (before ++ b :: after) currentOptions =
  firstPlaceVotes (before ++ b' :: after) currentOptions.
Proof.
  intros H. unfold firstPlaceVotes. rewrite !fold_left_app. simpl.
  unfold countVote at 2 4. now rewrite H.
Qed.

(** A ballot without a first choice leaves the tally object as it is. *)
Lemma firstPlaceVotes_exhausted (currentOptions : list string)
      (before after : list (list string)) (b : list string) :
  firstChoice currentOptions b = None ->
  firstPlaceVotes (before ++ b :: after) currentOptions =
  firstPlaceVotes (before ++ after) currentOptions.
Proof.
  intros H. unfold firstPlaceVotes. rewrite !fold_left_app. simpl.
  unfold countVote at 2. now rewrite H.
Qed.

(** The first choice of a ballot is its first entry among the candidates of
    the pass. *)
Lemma firstChoice_first (currentOptions vote : list string) (c : string) :
  firstChoice currentOptions vote = Some c <->
  exists l1 l2, vote = l1 ++ c :: l2 /\ In c currentOptions /\
                forall x, In x l1 -> ~ In x currentOptions.
Proof.
  unfold firstChoice, JS.find. induction vote as [|y v IH]; simpl.
  - split; [discriminate|]. intros [l1 [l2 [H _]]]. now destruct l1.
  - destruct (JS.includes currentOptions y) eqn:E.
    + apply includes_In in E. split.
      * intros [= <-]. exists [], v. simpl. tauto.
      * intros [[|z l1] [l2 [H [Hc Hl]]]]; simpl in H; injection H as Hy Hv.
        -- now rewrite Hy.
        -- exfalso. apply (Hl z); [now left | now rewrite <- Hy].
    + apply includes_false in E. rewrite IH. split.
      * intros [l1 [l2 [-> [Hc Hl]]]]. exists (y :: l1), l2. simpl.
        split; [reflexivity|]. split; [assumption|].
        intros x [<-|Hx]; auto.
      * intros [[|z l1] [l2 [H [Hc Hl]]]]; simpl in H; injection H as Hy Hv.
        -- rewrite Hy in E. contradiction.
        -- exists l1, l2. split; [assumption|]. split; [assumption|].
           intros x Hx. apply Hl. now right.
Qed.

Lemma firstChoice_None (currentOptions vote : list string) :
  firstChoice currentOptions vote = None <->
  forall x, In x vote -> ~ In x currentOptions.
Proof.
  unfold firstChoice, JS.find. split.
  - intros H x Hx. apply includes_false. now apply (find_none _ _ H).
  - intros H. destruct (find (JS.includes currentOptions) vote) as [c|] eqn:F;
      [|reflexivity].
    apply find_some in F. destruct F as [Hc F]. apply includes_In in F.
    now apply H in Hc.
Qed.

Lemma firstChoice_app (currentOptions l1 l2 : list string) :
  firstChoice currentOptions (l1 ++ l2) =
  match firstChoice currentOptions l1 with
  | Some c => Some c
  | None => firstChoice currentOptions l2
  end.
Proof.
  unfold firstChoice, JS.find. induction l1 as [|x l1 IH]; simpl; [reflexivity|].
  now destruct (JS.includes currentOptions x).
Qed.

(** An entry that is no candidate of the pass is skipped. *)
Lemma firstChoice_skip (currentOptions l1 l2 : list string) (x : string) :
  ~ In x currentOptions ->
  firstChoice currentOptions (l1 ++ x :: l2) = firstChoice currentOptions (l1 ++ l2).
Proof.
  intros H. rewrite !firstChoice_app. destruct (firstChoice currentOptions l1); [reflexivity|].
  unfold firstChoice, JS.find. simpl.
  apply includes_false in H. now rewrite H.
Qed.

(** A second occurrence of an entry is never the first choice. *)
Lemma firstChoice_dup (currentOptions l1 l2 l3 : list string) (x : string) :
  firstChoice currentOptions (l1 ++ x :: l2 ++ x :: l3) =
  firstChoice currentOptions (l1 ++ x :: l2 ++ l3).
Proof.
  destruct (in_dec string_dec x currentOptions) as [Hin|Hout].
  - rewrite !firstChoice_app. destruct (firstChoice currentOptions l1); [reflexivity|].
    unfold firstChoice, JS.find. simpl.
    apply includes_In in Hin. now rewrite Hin.
  - change (l1 ++ x :: l2 ++ x :: l3) with (l1 ++ (x :: l2) ++ x :: l3).
    change (l1 ++ x :: l2 ++ l3) with (l1 ++ (x :: l2) ++ l3).
    rewrite !app_assoc. now apply firstChoice_skip.
Qed.

(** Replacing a ballot by one with the same first choices, for every working
    set drawn from the catalog, does not change what the loop does. *)
Lemma loop_ballot (options : list string) (before after : list (list string))
      (b b' : list string) :
  (forall currentOptions,
      (forall c, In c currentOptions -> In c options) ->
      firstChoice currentOptions b = firstChoice currentOptions b') ->
  forall fuel,
    calculateRankedChoiceWinner fuel options (before ++ b :: after) =
    calculateRankedChoiceWinner fuel options (before ++ b' :: after).
Proof.
  intros H fuel. unfold calculateRankedChoiceWinner.
  rewrite !length_app. simpl.
  destruct (length before + S (length after) =? 0); [reflexivity|].
  apply loop_ext with (options := options); [|auto].
  intros cur Hcur. apply round_ext.
  - apply firstPlaceVotes_ballot. now apply H.
  - rewrite !length_app. reflexivity.
Qed.

(** ** The fallback when every candidate is eliminated *)

Lemma sort_map {A : Type} (cmp : A -> A -> Z) (g : A -> A) (l : list A) :
  (forall x y, cmp (g x) (g y) = cmp x y) ->
  JS.sort cmp (map g l) = map g (JS.sort cmp l).
Proof.
  intros H. induction l as [|x l IH]; simpl; [reflexivity|]. rewrite IH.
  generalize (JS.sort cmp l). intros s. induction s as [|y s IHs]; simpl; [reflexivity|].
  rewrite H. destruct (cmp x y <=? 0)%Z; simpl; [reflexivity|]. now rewrite IHs.
Qed.

Lemma filter_map_keys (p : string -> bool) (f : string -> nat) (o : JS.object) :
  filter (fun e => p (fst e)) (map (fun e => (fst e, f (fst e))) o) =
  map (fun e => (fst e, f (fst e))) (filter (fun e => p (fst e)) o).
Proof.
  induction o as [|e o IH]; simpl; [reflexivity|].
  destruct (p (fst e)); simpl; now rewrite IH.
Qed.

(** [Object.entries] orders the keys; the values play no part. *)
Lemma entries_map_values (f : string -> nat) (o : JS.object) :
  JS.entries (map (fun e => (fst e, f (fst e))) o) =
  map (fun e => (fst e, f (fst e))) (JS.entries o).
Proof.
  unfold JS.entries.
  rewrite (filter_map_keys JS.isIndex), (filter_map_keys (fun k => negb (JS.isIndex k))).
  rewrite sort_map by reflexivity. now rewrite map_app.
Qed.

Lemma entries_keys_firstPlaceVotes (allVotes : list (list string))
      (currentOptions : list string) :
  map fst (JS.entries (firstPlaceVotes allVotes currentOptions)) =
  map fst (JS.entries (initialVotes currentOptions)).
Proof.
  rewrite firstPlaceVotes_map.
  rewrite (entries_map_values (fun k => votesFor currentOptions k allVotes)).
  now rewrite map_map.
Qed.

(** When the elimination leaves nobody, every candidate holds the lowest
    count, and the eliminated candidates are the keys of the tally object in
    the order of [Object.entries]. *)
Lemma all_eliminated (allVotes : list (list string))
      (currentOptions : list string) (lowest : nat) :
  remainingOptions allVotes currentOptions lowest = [] ->
  (forall c, In c currentOptions ->
             JS.getProp (firstPlaceVotes allVotes currentOptions) c = Some lowest)
  /\ eliminatedOptions allVotes currentOptions lowest =
     map fst (JS.entries (initialVotes currentOptions)).
Proof.
  intros R.
  assert (forall c, In c currentOptions ->
            JS.getProp (firstPlaceVotes allVotes currentOptions) c = Some lowest) as A.
  { intros c Hc.
    destruct (JS.getProp (firstPlaceVotes allVotes currentOptions) c) as [n|] eqn:T.
    - destruct (Nat.eq_dec n lowest) as [->|N]; [reflexivity|].
      assert (In c (remainingOptions allVotes currentOptions lowest)) as H
          by (apply remainingOptions_In; split; [assumption | congruence]).
      rewrite R in H. contradiction.
    - assert (In c (remainingOptions allVotes currentOptions lowest)) as H
          by (apply remainingOptions_In; split; [assumption | congruence]).
      rewrite R in H. contradiction. }
  split; [assumption|].
  assert (forall e, In e (firstPlaceVotes allVotes currentOptions) -> snd e = lowest) as V.
  { intros [k n] He. apply firstPlaceVotes_In in He.
    assert (In k currentOptions) as Hk by (apply tally_Some in He; tauto).
    rewrite (A k Hk) in He. simpl. congruence. }
  assert (forall e, In e (JS.entries (firstPlaceVotes allVotes currentOptions)) ->
                    snd e = lowest) as V'.
  { intros e He. apply V. now apply (Permutation_in _ (entries_perm _)). }
  unfold eliminatedOptions, sortedVotes.
  rewrite (sort_equal_keys cmpCount _ cmpCount_key).
  - rewrite filter_all.
    + apply entries_keys_firstPlaceVotes.
    + intros e He. apply Nat.eqb_eq. now apply V'.
  - intros x y Hx Hy. now rewrite (V' x Hx), (V' y Hy).
Qed.

Lemma loop_not_undefined (allVotes : list (list string)) (fuel : nat)
      (currentOptions : list string) :
  loop fuel allVotes currentOptions <> Some ReturnsUndefined.
Proof.
  revert currentOptions. induction fuel as [|fuel IH]; intros cur; simpl; [discriminate|].
  destruct (round allVotes cur) as [d|next] eqn:R; [|apply IH].
  intros [= ->]. now apply round_not_undefined in R.
Qed.

Lemma calculate_nonempty (fuel : nat) (options : list string)
      (allVotes : list (list string)) :
  allVotes <> [] ->
  calculateRankedChoiceWinner fuel options allVotes = loop fuel allVotes options.
Proof.
  unfold calculateRankedChoiceWinner. destruct allVotes; [congruence | reflexivity].
Qed.

Lemma votesFor_insert (currentOptions : list string) (k : string)
      (before after : list (list string)) (b : list string) :
  votesFor currentOptions k (before ++ b :: after) =
  votesFor currentOptions k (before ++ after)
  + if countedFor currentOptions k b then 1 else 0.
Proof.
  unfold votesFor. rewrite !filter_app, !length_app. simpl.
  destruct (countedFor currentOptions k b); simpl; lia.
Qed.

(** * The claims of the specification *)

(** C1, as amended.  For every non-empty candidate catalog in which the
    identifier [__proto__] occurs at most once (every catalog of unique
    identifiers is one) and every non-empty ballot list,
    [calculateRankedChoiceWinner] returns exactly one identifier, and that
    identifier is a member of the original catalog; it differs from the
    sentinel text whenever the sentinel text is not itself in the catalog. *)
Theorem C1_returns_catalog_member (options : list string)
        (allVotes : list (list string)) :
  options <> [] -> allVotes <> [] ->
  count_occ string_dec options JS.protoKey <= 1 ->
  exists w, In w options /\
            (~ In sentinel options -> w <> sentinel) /\
            forall fuel, length options <= fuel ->
              calculateRankedChoiceWinner fuel options allVotes = Some (Returns w).
Proof.
  intros Ho Hv Hp.
  destruct (loop_returns allVotes (length options) options Ho Hp (le_n _))
    as [w [Hw Hin]].
  exists w. split; [assumption|]. split; [congruence|].
  intros fuel Hf. rewrite calculate_nonempty by assumption.
  now apply loop_more_fuel with (fuel := length options).
Qed.

Lemma C1_returns_catalog_member_witness :
  exists w, In w ["A"; "B"; "C"] /\
            (~ In sentinel ["A"; "B"; "C"] -> w <> sentinel) /\
            forall fuel, length ["A"; "B"; "C"] <= fuel ->
              calculateRankedChoiceWinner fuel ["A"; "B"; "C"]
                [["A"; "B"; "C"]; ["B"; "A"; "C"]; ["C"; "B"; "A"]; ["C"; "A"; "B"]]
              = Some (Returns w).
Proof.
  apply (C1_returns_catalog_member ["A"; "B"; "C"]
           [["A"; "B"; "C"]; ["B"; "A"; "C"]; ["C"; "B"; "A"]; ["C"; "A"; "B"]]).
  - discriminate.
  - discriminate.
  - vm_compute. repeat constructor.
Defined.

(** C1 as stated fails on a catalog that holds [__proto__] twice: the tally
    object gets no property, [sortedVotes[0]] is [undefined], and the call
    throws instead of returning a member of the catalog.  It also fails, in
    its remark on the sentinel, on a catalog that holds the sentinel text: the
    candidate returned is then that text. *)
Lemma C1_duplicate_proto_throws :
  (["__proto__"; "__proto__"] <> [] /\ [["__proto__"]] <> [] /\
   calculateRankedChoiceWinner 2 ["__proto__"; "__proto__"] [["__proto__"]]
   = Some ThrowsTypeError)
  /\ calculateRankedChoiceWinner 1 ["No votes submitted yet."] [["A"]]
     = Some (Returns sentinel).
Proof. repeat split; try discriminate. Qed.

(** C2.  In every tally pass a candidate wins at once if and only if it is a
    candidate of the pass whose first-preference tally strictly exceeds half
    of the number of ballots, the half being taken without rounding: a tally
    of exactly half does not win, and a tally wins exactly when twice the
    tally exceeds the number of ballots.  At most one candidate exceeds the
    threshold, so the order in which the working set is scanned does not
    change who is returned. *)
Theorem C2_strict_majority (allVotes : list (list string))
        (currentOptions : list string) :
  let tally := JS.getProp (firstPlaceVotes allVotes currentOptions) in
  let exceeds (n : nat) :=
    (inject_Z (Z.of_nat (length allVotes)) / 2 < inject_Z (Z.of_nat n))%Q in
  (forall n, exceeds n <-> length allVotes < 2 * n)
  /\ (forall c, majorityWinner allVotes currentOptions = Some c <->
                In c currentOptions /\ exists n, tally c = Some n /\ exceeds n)
  /\ (forall c, majorityWinner allVotes currentOptions = Some c ->
                round allVotes currentOptions = Done (Returns c) /\
                forall fuel,
                  loop (S fuel) allVotes currentOptions = Some (Returns c))
  /\ (forall c n, tally c = Some n -> 2 * n = length allVotes ->
                  ~ exceeds n /\ majorityWinner allVotes currentOptions <> Some c)
  /\ (forall c1 c2 n1 n2, tally c1 = Some n1 -> tally c2 = Some n2 ->
                          exceeds n1 -> exceeds n2 -> c1 = c2)
  /\ (forall currentOptions', Permutation currentOptions currentOptions' ->
        majorityWinner allVotes currentOptions'
        = majorityWinner allVotes currentOptions).
Proof.
  cbv zeta.
  assert (forall c, exceedsThreshold allVotes currentOptions c = true <->
            exists n, JS.getProp (firstPlaceVotes allVotes currentOptions) c = Some n
                      /\ (inject_Z (Z.of_nat (length allVotes)) / 2
                          < inject_Z (Z.of_nat n))%Q) as X.
  { intros c. rewrite exceedsThreshold_spec.
    split; intros [n [T H]]; exists n; (split; [assumption|]);
      now apply exceeds_half. }
  assert (forall c, majorityWinner allVotes currentOptions = Some c ->
                    round allVotes currentOptions = Done (Returns c)) as W.
  { intros c M.
    destruct (Nat.eq_dec (length currentOptions) 1) as [E|N].
    - apply majorityWinner_spec in M. destruct M as [Hin _].
      destruct currentOptions as [|a [|b l]]; try discriminate.
      destruct Hin as [<-|[]]. reflexivity.
    - now rewrite (round_tally _ _ N), M. }
  split; [|split; [|split; [|split; [|split]]]].
  - intros n. apply exceeds_half.
  - intros c. now rewrite majorityWinner_spec, X.
  - intros c M. split; [now apply W|].
    intros fuel. cbn [loop]. now rewrite (W c M).
  - intros c n T H.
    assert (~ (inject_Z (Z.of_nat (length allVotes)) / 2
               < inject_Z (Z.of_nat n))%Q) as NE.
    { rewrite exceeds_half. lia. }
    split; [assumption|]. intros M.
    apply majorityWinner_spec in M. destruct M as [_ M].
    apply X in M. destruct M as [m [T' H']]. congruence.
  - intros c1 c2 n1 n2 T1 T2 H1 H2.
    apply exceedsThreshold_unique with (allVotes := allVotes)
                                       (currentOptions := currentOptions);
      apply X; eauto.
  - intros cur' P. symmetry. apply majorityWinner_same_members.
    intros x. split; apply Permutation_in; [assumption | now symmetry].
Qed.

(** Two of three ballots win the pass; one of two does not, nor does two of
    four. *)
Example majority_of_the_ballots :
  majorityWinner [["B"]; ["B"]; ["A"]] ["A"; "B"; "C"] = Some "B" /\
  majorityWinner [["B"]; ["A"]] ["A"; "B"; "C"] = None /\
  majorityWinner [["B"]; ["B"]; ["A"]; ["C"]] ["A"; "B"; "C"] = None.
Proof. repeat split. Qed.

(** C3.  In every pass where no candidate has a strict majority, the
    candidates eliminated are exactly the candidates of the working set whose
    tally equals the minimum tally of the pass, and they all leave the working
    set in that same pass: the next pass of the loop runs on the current
    working set without them, whatever their number. *)
Theorem C3_lowest_eliminated_together (allVotes : list (list string))
        (currentOptions : list string) (lowest : nat) :
  majorityWinner allVotes currentOptions = None ->
  lowestVoteCount allVotes currentOptions = Some lowest ->
  let tally := JS.getProp (firstPlaceVotes allVotes currentOptions) in
  ((exists c, In c currentOptions /\ tally c = Some lowest) /\
   (forall c n, tally c = Some n -> lowest <= n))
  /\ (forall c, In c (eliminatedOptions allVotes currentOptions lowest) <->
                In c currentOptions /\ tally c = Some lowest)
  /\ (forall c, In c (remainingOptions allVotes currentOptions lowest) <->
                In c currentOptions /\ tally c <> Some lowest)
  /\ (length currentOptions <> 1 ->
      remainingOptions allVotes currentOptions lowest <> [] ->
      round allVotes currentOptions
      = Continue (remainingOptions allVotes currentOptions lowest)
      /\ forall fuel,
          loop (S fuel) allVotes currentOptions
          = loop fuel allVotes (remainingOptions allVotes currentOptions lowest)).
Proof.
  intros M L tally. subst tally. split; [|split; [|split]].
  - now apply lowestVoteCount_least.
  - intros c. rewrite eliminatedOptions_In. split; [|tauto].
    intros T. split; [|assumption]. apply tally_Some in T. tauto.
  - apply remainingOptions_In.
  - intros N R.
    assert (round allVotes currentOptions
            = Continue (remainingOptions allVotes currentOptions lowest)) as E.
    { rewrite (round_tally _ _ N), M, L.
      destruct (remainingOptions allVotes currentOptions lowest);
        [congruence | reflexivity]. }
    split; [assumption|]. intros fuel. cbn [loop]. now rewrite E.
Qed.

Lemma C3_lowest_eliminated_together_witness :
  round [["A"; "B"; "C"]; ["B"; "A"; "C"]; ["C"; "B"; "A"]; ["C"; "A"; "B"]]
        ["A"; "B"; "C"]
  = Continue (remainingOptions
                [["A"; "B"; "C"]; ["B"; "A"; "C"]; ["C"; "B"; "A"]; ["C"; "A"; "B"]]
                ["A"; "B"; "C"] 1)
  /\ forall fuel,
      loop (S fuel)
           [["A"; "B"; "C"]; ["B"; "A"; "C"]; ["C"; "B"; "A"]; ["C"; "A"; "B"]]
           ["A"; "B"; "C"]
      = loop fuel
             [["A"; "B"; "C"]; ["B"; "A"; "C"]; ["C"; "B"; "A"]; ["C"; "A"; "B"]]
             (remainingOptions
                [["A"; "B"; "C"]; ["B"; "A"; "C"]; ["C"; "B"; "A"]; ["C"; "A"; "B"]]
                ["A"; "B"; "C"] 1).
Proof.
  apply (C3_lowest_eliminated_together
           [["A"; "B"; "C"]; ["B"; "A"; "C"]; ["C"; "B"; "A"]; ["C"; "A"; "B"]]
           ["A"; "B"; "C"] 1).
  - reflexivity.
  - reflexivity.
  - discriminate.
  - discriminate.
Defined.

(** The two candidates tied at the lowest tally leave together, and the pass
    that follows is run on "C" alone. *)
Example tied_lowest_leave_together :
  remainingOptions
    [["A"; "B"; "C"]; ["B"; "A"; "C"]; ["C"; "B"; "A"]; ["C"; "A"; "B"]]
    ["A"; "B"; "C"] 1 = ["C"] /\
  loop 1 [["A"; "B"; "C"]; ["B"; "A"; "C"]; ["C"; "B"; "A"]; ["C"; "A"; "B"]]
       ["A"; "B"; "C"] = None /\
  loop 2 [["A"; "B"; "C"]; ["B"; "A"; "C"]; ["C"; "B"; "A"]; ["C"; "A"; "B"]]
       ["A"; "B"; "C"] = Some (Returns "C").
Proof. repeat split. Qed.

(** C4, as amended.  If an elimination pass removes every candidate of the
    working set, the function does not fail: it returns the first of the
    candidates just eliminated, in the order of [Object.entries] on the tally
    object.  That order puts the identifiers that are array indices first, in
    ascending numeric order, and then the other identifiers in catalog order;
    so the candidate returned is the first of the working set when no
    identifier in it is an array index, and the least array index in it
    otherwise. *)
Theorem C4_fallback_order (allVotes : list (list string))
        (currentOptions : list string) (lowest : nat) :
  length currentOptions <> 1 ->
  majorityWinner allVotes currentOptions = None ->
  lowestVoteCount allVotes currentOptions = Some lowest ->
  remainingOptions allVotes currentOptions lowest = [] ->
  exists w,
    round allVotes currentOptions = Done (Returns w)
    /\ (forall fuel, loop (S fuel) allVotes currentOptions = Some (Returns w))
    /\ (forall c, In c currentOptions <->
                  In c (eliminatedOptions allVotes currentOptions lowest))
    /\ eliminatedOptions allVotes currentOptions lowest
       = map fst (JS.entries (initialVotes currentOptions))
    /\ hd_error (eliminatedOptions allVotes currentOptions lowest) = Some w
    /\ ((forall c, In c currentOptions -> JS.isIndex c = false) ->
        hd_error currentOptions = Some w)
    /\ (forall c, In c currentOptions -> JS.isIndex c = true ->
                  JS.isIndex w = true /\ (JS.indexOf w <= JS.indexOf c)%N).
Proof.
  intros N M L R.
  destruct (all_eliminated _ _ _ R) as [A El].
  destruct (eliminatedOptions_head _ _ _ L) as [e [r [r' [_ Hd]]]].
  assert (round allVotes currentOptions = Done (Returns (fst e))) as Rd
      by now rewrite (round_tally _ _ N), M, L, R, Hd.
  assert (forall c, In c currentOptions ->
            exists v, In (c, v) (initialVotes currentOptions)) as K.
  { intros c Hc. specialize (A c Hc). apply tally_Some in A.
    assert (In c (map fst (initialVotes currentOptions))) as Hk
        by (apply initialVotes_keys; tauto).
    apply in_map_iff in Hk. destruct Hk as [[k v] [<- Hk]]. now exists v. }
  exists (fst e). split; [assumption|]. split; [|split; [|split; [|split; [|split]]]].
  - intros fuel. cbn [loop]. now rewrite Rd.
  - intros c. rewrite eliminatedOptions_In. split; [now apply A|].
    intros T. apply tally_Some in T. tauto.
  - assumption.
  - now rewrite Hd.
  - intros NI. destruct currentOptions as [|c0 l].
    + exfalso.
      assert (lowestVoteCount allVotes [] = None) as L'
          by (apply lowestVoteCount_None; intros c []).
      congruence.
    + assert (c0 <> JS.protoKey) as P0.
      { specialize (A c0 (or_introl eq_refl)). apply tally_Some in A. tauto. }
      destruct (initialVotes_head c0 l P0) as [e0 [o [I0 F0]]].
      rewrite entries_no_index, I0 in El.
      * rewrite Hd in El. simpl in El. injection El as -> _. now rewrite F0.
      * intros x Hx. apply NI. apply (in_map fst) in Hx.
        apply initialVotes_keys in Hx. tauto.
  - intros c Hc Ic. destruct (K c Hc) as [v Hv].
    destruct (entries_index_first _ (c, v) Hv Ic) as [e1 [r1 [E1 [I1 Least]]]].
    rewrite E1, Hd in El. simpl in El. injection El as -> _.
    split; [assumption|]. apply (Least (c, v)); assumption.
Qed.

Lemma C4_fallback_order_witness :
  exists w,
    round [["A"; "B"]; ["B"; "A"]] ["A"; "B"] = Done (Returns w)
    /\ hd_error ["A"; "B"] = Some w.
Proof.
  destruct (C4_fallback_order [["A"; "B"]; ["B"; "A"]] ["A"; "B"] 1)
    as [w [H1 [_ [_ [_ [_ [H2 _]]]]]]].
  - discriminate.
  - reflexivity.
  - reflexivity.
  - reflexivity.
  - exists w. split; [exact H1|]. apply H2.
    intros c [<-|[<-|[]]]; reflexivity.
Defined.

(** C4 as stated fails on identifiers that are array indices: with the
    catalog "2", "1" and the two candidates tied, both are eliminated, the
    first of them in catalog order is "2", and the function returns "1". *)
Lemma C4_array_index_first :
  majorityWinner [["2"; "1"]; ["1"; "2"]] ["2"; "1"] = None /\
  lowestVoteCount [["2"; "1"]; ["1"; "2"]] ["2"; "1"] = Some 1 /\
  remainingOptions [["2"; "1"]; ["1"; "2"]] ["2"; "1"] 1 = [] /\
  eliminatedOptions [["2"; "1"]; ["1"; "2"]] ["2"; "1"] 1 = ["1"; "2"] /\
  JS.find (JS.includes
             (eliminatedOptions [["2"; "1"]; ["1"; "2"]] ["2"; "1"] 1))
          ["2"; "1"] = Some "2" /\
  calculateRankedChoiceWinner 2 ["2"; "1"] [["2"; "1"]; ["1"; "2"]]
  = Some (Returns "1").
Proof. repeat split. Qed.

(** C5.  The threshold of every pass divides the number of all the ballots
    of the call.  A ballot none of whose entries is in the working set of a
    pass adds to no tally of that pass, and still counts in the denominator:
    with it, a candidate wins the pass only with more than half of the
    ballots, the exhausted one included.  The pass that follows is run on the
    same ballots, the exhausted one among them. *)
Theorem C5_exhausted_ballot_counts (currentOptions : list string)
        (before after : list (list string)) (b : list string) :
  (forall x, In x b -> ~ In x currentOptions) ->
  firstPlaceVotes (before ++ b :: after) currentOptions
  = firstPlaceVotes (before ++ after) currentOptions
  /\ totalVotes (before ++ b :: after) = S (totalVotes (before ++ after))
  /\ (forall w, majorityWinner (before ++ b :: after) currentOptions = Some w <->
       In w currentOptions /\
       exists n, JS.getProp (firstPlaceVotes (before ++ after) currentOptions) w
                 = Some n /\
                 (inject_Z (Z.of_nat (S (length (before ++ after)))) / 2
                  < inject_Z (Z.of_nat n))%Q)
  /\ (forall fuel next,
        round (before ++ b :: after) currentOptions = Continue next ->
        loop (S fuel) (before ++ b :: after) currentOptions
        = loop fuel (before ++ b :: after) next).
Proof.
  intros E. apply firstChoice_None in E.
  pose proof (firstPlaceVotes_exhausted currentOptions before after b E) as F.
  assert (length (before ++ b :: after) = S (length (before ++ after))) as Len
      by (rewrite !length_app; simpl; lia).
  split; [assumption|]. split; [exact Len|]. split.
  - intros w. rewrite majorityWinner_spec, exceedsThreshold_spec, F, Len.
    split; intros [Hin [n [T H]]]; (split; [assumption|]); exists n;
      (split; [assumption|]); now apply exceeds_half.
  - intros fuel next R. cbn [loop]. now rewrite R.
Qed.

Lemma C5_exhausted_ballot_counts_witness :
  firstPlaceVotes ([["A"]; ["A"]; ["A"]; ["B"]; ["B"]] ++ ["C"] :: []) ["A"; "B"]
  = firstPlaceVotes ([["A"]; ["A"]; ["A"]; ["B"]; ["B"]] ++ []) ["A"; "B"]
  /\ totalVotes ([["A"]; ["A"]; ["A"]; ["B"]; ["B"]] ++ ["C"] :: []) = 6.
Proof.
  destruct (C5_exhausted_ballot_counts ["A"; "B"]
              [["A"]; ["A"]; ["A"]; ["B"]; ["B"]] [] ["C"]) as [H1 [H2 _]].
  - intros x [<-|[]] [H|[H|[]]]; discriminate.
  - split; [exact H1 | exact H2].
Defined.

(** With the six ballots above, "A" holds three of the five ballots still
    counted once "C" is eliminated, and does not win the pass: three does not
    exceed half of six. *)
Example exhausted_ballot_blocks_majority :
  majorityWinner [["A"]; ["A"]; ["A"]; ["B"]; ["B"]; ["C"]] ["A"; "B"] = None /\
  majorityWinner [["A"]; ["A"]; ["A"]; ["B"]; ["B"]] ["A"; "B"] = Some "A".
Proof. split; reflexivity. Qed.

(** C6, as amended.  For every candidate catalog, of any size, a call with an
    empty ballot list returns the "no votes" sentinel and never an error,
    whatever the fuel: the loop is not entered, not even on the empty catalog,
    where a pass of the loop throws.  The value returned is a candidate
    identifier of the catalog only when the sentinel text is itself an entry
    of the catalog. *)
Theorem C6_no_votes_sentinel (fuel : nat) (options : list string) :
  calculateRankedChoiceWinner fuel options [] = Some (Returns sentinel)
  /\ (forall w, calculateRankedChoiceWinner fuel options [] = Some (Returns w) ->
                (In w options <-> In sentinel options))
  /\ (~ In sentinel options ->
      forall w, calculateRankedChoiceWinner fuel options [] = Some (Returns w) ->
                ~ In w options)
  /\ (calculateRankedChoiceWinner fuel [] [] = Some (Returns sentinel) /\
      loop (S fuel) [] [] = Some ThrowsTypeError).
Proof.
  split; [reflexivity|]. split; [|split].
  - intros w [= <-]. tauto.
  - intros H w [= <-]. assumption.
  - split; reflexivity.
Qed.

(** C6 as stated fails on a catalog that holds the sentinel text: the value
    returned for an empty ballot list is then an identifier of the catalog. *)
Lemma C6_sentinel_text_in_catalog :
  calculateRankedChoiceWinner 0 ["A"; "No votes submitted yet."] []
  = Some (Returns "No votes submitted yet.")
  /\ In "No votes submitted yet." ["A"; "No votes submitted yet."].
Proof. split; [reflexivity | simpl; auto]. Qed.

(** C7, as amended.  [calculateRankedChoiceWinner] always completes, and
    never by returning [undefined]; it returns a result without throwing
    whenever the ballot list is empty or the catalog is non-empty and holds
    [__proto__] at most once; on the empty catalog with at least one ballot it
    throws a [TypeError]. *)
Theorem C7_completion (options : list string) (allVotes : list (list string)) :
  (exists c, c <> ReturnsUndefined /\
             forall fuel, Nat.max 1 (length options) <= fuel ->
               calculateRankedChoiceWinner fuel options allVotes = Some c)
  /\ (allVotes = [] \/
      (options <> [] /\ count_occ string_dec options JS.protoKey <= 1) ->
      exists w, forall fuel, Nat.max 1 (length options) <= fuel ->
                  calculateRankedChoiceWinner fuel options allVotes
                  = Some (Returns w))
  /\ (options = [] -> allVotes <> [] ->
      forall fuel, 1 <= fuel ->
        calculateRankedChoiceWinner fuel options allVotes = Some ThrowsTypeError).
Proof.
  split; [|split].
  - destruct allVotes as [|v vs].
    + exists (Returns sentinel). split; [discriminate | reflexivity].
    + destruct (loop_completes (v :: vs) (Nat.max 1 (length options)) options)
        as [c [Hc _]]; [lia | lia |].
      exists c. split.
      * intros ->. now apply loop_not_undefined in Hc.
      * intros fuel Hf. rewrite calculate_nonempty by discriminate.
        now apply loop_more_fuel with (fuel := Nat.max 1 (length options)).
  - intros [-> | [Ho Hp]].
    + exists sentinel. reflexivity.
    + destruct allVotes as [|v vs].
      * exists sentinel. reflexivity.
      * destruct (loop_returns (v :: vs) (length options) options Ho Hp (le_n _))
          as [w [Hw _]].
        exists w. intros fuel Hf. rewrite calculate_nonempty by discriminate.
        apply loop_more_fuel with (fuel := length options); [assumption | lia].
  - intros -> Hv fuel Hf. rewrite calculate_nonempty by assumption.
    destruct fuel as [|fuel]; [lia|]. cbn [loop].
    assert (round allVotes [] = Done ThrowsTypeError) as ->; [|reflexivity].
    apply round_Throws. simpl. split; [lia | tauto].
Qed.

(** C7 as stated fails on the empty catalog: with one ballot the call throws
    at [sortedVotes[0][1]]. *)
Lemma C7_empty_catalog_throws :
  calculateRankedChoiceWinner 1 [] [["A"]] = Some ThrowsTypeError.
Proof. reflexivity. Qed.

(** C8.  For every non-empty candidate catalog (a sequence of unique
    identifiers) and non-empty ballot list the loop terminates: every pass
    that loops back has removed at least one candidate from the working set
    the next pass runs on, so the loop makes at most as many passes as the
    catalog has candidates before it returns a result. *)
Theorem C8_bounded_loop (options : list string) (allVotes : list (list string)) :
  options <> [] -> allVotes <> [] -> NoDup options ->
  (forall currentOptions next,
      round allVotes currentOptions = Continue next ->
      length next < length currentOptions /\
      forall fuel,
        loop (S fuel) allVotes currentOptions = loop fuel allVotes next)
  /\ exists w, forall fuel, length options <= fuel ->
       calculateRankedChoiceWinner fuel options allVotes = Some (Returns w) /\
       passes fuel allVotes options <= length options.
Proof.
  intros Ho Hv ND.
  assert (1 <= length options) as H1 by (destruct options; [congruence | simpl; lia]).
  assert (count_occ string_dec options JS.protoKey <= 1) as Hp
      by now apply (proj1 (NoDup_count_occ string_dec options)).
  split.
  - intros cur next R. split; [now apply round_Continue in R|].
    intros fuel. cbn [loop]. now rewrite R.
  - destruct (loop_returns allVotes (length options) options Ho Hp (le_n _))
      as [w [Hw _]].
    exists w. intros fuel Hf. rewrite calculate_nonempty by assumption. split.
    + now apply loop_more_fuel with (fuel := length options).
    + destruct (loop_completes allVotes fuel options) as [c' [_ Hc]]; lia.
Qed.

Lemma C8_bounded_loop_witness :
  exists w, forall fuel, 3 <= fuel ->
      calculateRankedChoiceWinner fuel ["A"; "B"; "C"]
        [["A"]; ["A"]; ["B"]; ["B"]; ["C"; "B"]] = Some (Returns w) /\
      passes fuel [["A"]; ["A"]; ["B"]; ["B"]; ["C"; "B"]] ["A"; "B"; "C"] <= 3.
Proof.
  apply (C8_bounded_loop ["A"; "B"; "C"] [["A"]; ["A"]; ["B"]; ["B"]; ["C"; "B"]]).
  - discriminate.
  - discriminate.
  - repeat constructor; simpl; intuition discriminate.
Defined.

(** The loop above makes two passes: the first eliminates "C", the second
    returns "B". *)
Example two_passes :
  passes 3 [["A"]; ["A"]; ["B"]; ["B"]; ["C"; "B"]] ["A"; "B"; "C"] = 2 /\
  calculateRankedChoiceWinner 1 ["A"; "B"; "C"]
    [["A"]; ["A"]; ["B"]; ["B"]; ["C"; "B"]] = None /\
  calculateRankedChoiceWinner 2 ["A"; "B"; "C"]
    [["A"]; ["A"]; ["B"]; ["B"]; ["C"; "B"]] = Some (Returns "B").
Proof. repeat split. Qed.

(** C9.  The result depends on the ballots as a multiset: two ballot lists
    that are permutations of each other give, for every catalog, the same
    result, whichever return of the function produces it. *)
Theorem C9_ballot_order_irrelevant (fuel : nat) (options : list string)
        (allVotes allVotes' : list (list string)) :
  Permutation allVotes allVotes' ->
  calculateRankedChoiceWinner fuel options allVotes
  = calculateRankedChoiceWinner fuel options allVotes'.
Proof.
  intros P. unfold calculateRankedChoiceWinner.
  rewrite (Permutation_length P).
  destruct (length allVotes' =? 0); [reflexivity|].
  apply loop_ext with (options := options); [|auto].
  intros cur _. apply round_ext.
  - now apply firstPlaceVotes_Permutation.
  - now apply Permutation_length.
Qed.

Lemma C9_ballot_order_irrelevant_witness :
  calculateRankedChoiceWinner 2 ["A"; "B"] [["A"; "B"]; ["B"; "A"]]
  = calculateRankedChoiceWinner 2 ["A"; "B"] [["B"; "A"]; ["A"; "B"]].
Proof.
  apply (C9_ballot_order_irrelevant 2 ["A"; "B"]
           [["A"; "B"]; ["B"; "A"]] [["B"; "A"]; ["A"; "B"]]).
  apply perm_swap.
Defined.

(** C10, at a catalog that holds [__proto__].  Over the candidates
    "__proto__", "A", "B", the ballot "__proto__", "A", which omits "B", has
    "__proto__" as its first entry in the working set; the test of line 704
    lets it through, and the increment of line 705 leaves the tally object as
    it was: the ballot is tallied for nobody.  With two ballots for "A" and
    two for "B" no candidate exceeds 2.5, "A" and "B" are eliminated with two
    votes each and "__proto__", which holds no tally, is returned.  The same
    happens with the full ranking "__proto__", "A", "B".  Under any other name
    the candidate is tallied once and eliminated first, and the ballot then
    gives "A" its third vote and the majority. *)
Theorem C10_proto_ballot_not_tallied :
  let options := ["__proto__"; "A"; "B"] in
  let others := [["A"; "B"; "__proto__"]; ["A"; "__proto__"; "B"];
                 ["B"; "A"; "__proto__"]; ["B"; "__proto__"; "A"]] in
  let allVotes := others ++ [["__proto__"; "A"]] in
  (firstChoice options ["__proto__"; "A"] = Some "__proto__" /\
   JS.truthy "__proto__" = true /\
   countVote options (firstPlaceVotes others options) ["__proto__"; "A"]
   = firstPlaceVotes others options)
  /\ (firstPlaceVotes allVotes options = [("A", 2); ("B", 2)] /\
      JS.getProp (firstPlaceVotes allVotes options) "__proto__" = None /\
      majorityWinner allVotes options = None /\
      eliminatedOptions allVotes options 2 = ["A"; "B"] /\
      round allVotes options = Continue ["__proto__"])
  /\ calculateRankedChoiceWinner 2 options allVotes = Some (Returns "__proto__")
  /\ calculateRankedChoiceWinner 2 options (others ++ [["__proto__"; "A"; "B"]])
     = Some (Returns "__proto__")
  /\ (firstPlaceVotes
        [["A"; "B"; "P"]; ["A"; "P"; "B"]; ["B"; "A"; "P"]; ["B"; "P"; "A"];
         ["P"; "A"]] ["P"; "A"; "B"] = [("P", 1); ("A", 2); ("B", 2)] /\
      round
        [["A"; "B"; "P"]; ["A"; "P"; "B"]; ["B"; "A"; "P"]; ["B"; "P"; "A"];
         ["P"; "A"]] ["P"; "A"; "B"] = Continue ["A"; "B"] /\
      firstPlaceVotes
        [["A"; "B"; "P"]; ["A"; "P"; "B"]; ["B"; "A"; "P"]; ["B"; "P"; "A"];
         ["P"; "A"]] ["A"; "B"] = [("A", 3); ("B", 2)] /\
      calculateRankedChoiceWinner 2 ["P"; "A"; "B"]
        [["A"; "B"; "P"]; ["A"; "P"; "B"]; ["B"; "A"; "P"]; ["B"; "P"; "A"];
         ["P"; "A"]] = Some (Returns "A")).
Proof. cbv zeta. repeat split. Qed.

(** * Further properties of the code *)

(** ** The resolver *)

Lemma countedFor_choosesFirst (currentOptions : list string) (c : string)
      (vote : list string) :
  c <> "" -> c <> JS.protoKey ->
  countedFor currentOptions c vote = choosesFirst currentOptions c vote.
Proof.
  intros E P. unfold countedFor, choosesFirst.
  destruct (firstChoice currentOptions vote) as [x|]; [|reflexivity].
  destruct (String.eqb x c) eqn:X; [|reflexivity].
  apply String.eqb_eq in X. subst x. unfold JS.truthy.
  apply String.eqb_neq in E, P. now rewrite E, P.
Qed.

Lemma countedFor_counted (currentOptions : list string) (k : string)
      (vote : list string) :
  countedFor currentOptions k vote =
  counted currentOptions vote && choosesFirst currentOptions k vote.
Proof.
  unfold countedFor, counted, choosesFirst.
  destruct (firstChoice currentOptions vote) as [x|]; [|reflexivity].
  destruct (String.eqb x k), (JS.truthy x), (negb (String.eqb x JS.protoKey));
    reflexivity.
Qed.

(** X1.  A candidate of the catalog, other than the empty string and
    [__proto__], that is the first choice of more than half of the ballots
    is returned, and in the first pass. *)
Theorem majority_of_first_choices_wins (options : list string)
        (allVotes : list (list string)) (c : string) (fuel : nat) :
  In c options -> c <> "" -> c <> JS.protoKey ->
  length allVotes < 2 * length (filter (choosesFirst options c) allVotes) ->
  calculateRankedChoiceWinner (S fuel) options allVotes = Some (Returns c).
Proof.
  intros Hin E P M.
  assert (allVotes <> []) as Hv by (intros ->; simpl in M; lia).
  rewrite calculate_nonempty by assumption. cbn [loop].
  assert (round allVotes options = Done (Returns c)) as ->; [|reflexivity].
  destruct (Nat.eq_dec (length options) 1) as [L|L].
  - destruct options as [|a [|b l]]; try discriminate.
    destruct Hin as [<-|[]]. reflexivity.
  - rewrite (round_tally _ _ L).
    assert (majorityWinner allVotes options = Some c) as ->; [|reflexivity].
    apply majorityWinner_spec. split; [assumption|].
    apply exceedsThreshold_spec.
    exists (votesFor options c allVotes). split.
    + apply tally_Some. auto.
    + unfold votesFor.
      rewrite (filter_ext _ _ (fun v => countedFor_choosesFirst options c v E P)).
      assumption.
Qed.

Lemma majority_of_first_choices_wins_witness :
  calculateRankedChoiceWinner 1 ["A"; "B"; "C"]
    [["X"; "B"; "A"]; ["B"]; ["C"; "A"]; ["B"; "C"; "A"]; ["A"; "B"]]
  = Some (Returns "B").
Proof.
  apply (majority_of_first_choices_wins ["A"; "B"; "C"]
           [["X"; "B"; "A"]; ["B"]; ["C"; "A"]; ["B"; "C"; "A"]; ["A"; "B"]]
           "B" 0).
  - simpl. auto.
  - discriminate.
  - discriminate.
  - vm_compute. repeat constructor.
Defined.

Lemma list_sum_add {A : Type} (f g : A -> nat) (l : list A) :
  list_sum (map (fun x => f x + g x) l)
  = list_sum (map f l) + list_sum (map g l).
Proof. induction l as [|x l IH]; simpl; lia. Qed.

Lemma list_sum_zero {A : Type} (f : A -> nat) (l : list A) :
  (forall x, In x l -> f x = 0) -> list_sum (map f l) = 0.
Proof.
  induction l as [|x l IH]; simpl; intros H; [reflexivity|].
  rewrite (H x (or_introl eq_refl)), IH; [reflexivity|]. intros; apply H; now right.
Qed.

Lemma list_sum_indicator (x : string) (l : list string) :
  NoDup l -> In x l ->
  list_sum (map (fun k => if String.eqb x k then 1 else 0) l) = 1.
Proof.
  induction l as [|y l IH]; simpl; [tauto|].
  intros ND Hin. inversion ND as [|? ? Hy ND']; subst.
  destruct (String.eqb x y) eqn:E.
  - apply String.eqb_eq in E. subst y.
    rewrite list_sum_zero; [reflexivity|].
    intros k Hk. destruct (String.eqb x k) eqn:E'; [|reflexivity].
    apply String.eqb_eq in E'. subst. contradiction.
  - apply String.eqb_neq in E. destruct Hin as [->|Hin]; [congruence|].
    now rewrite IH.
Qed.

(** Over the keys of the tally object, the ballots counted for a key add up
    to the ballots counted. *)
Lemma votesFor_sum (currentOptions : list string)
      (allVotes : list (list string)) :
  list_sum (map (fun k => votesFor currentOptions k allVotes)
                (map fst (initialVotes currentOptions)))
  = length (filter (counted currentOptions) allVotes).
Proof.
  induction allVotes as [|v vs IH].
  - simpl. apply list_sum_zero. reflexivity.
  - assert (forall l,
              list_sum (map (fun k => votesFor currentOptions k (v :: vs)) l)
              = list_sum (map (fun k => if countedFor currentOptions k v
                                        then 1 else 0) l)
                + list_sum (map (fun k => votesFor currentOptions k vs) l)) as Split.
    { intros l. rewrite <- list_sum_add. f_equal. apply map_ext. intros k.
      unfold votesFor. simpl. now destruct (countedFor currentOptions k v). }
    rewrite Split, IH. clear Split IH.
    assert (list_sum (map (fun k => if countedFor currentOptions k v
                                    then 1 else 0)
                          (map fst (initialVotes currentOptions)))
            = if counted currentOptions v then 1 else 0) as ->.
    { destruct (counted currentOptions v) eqn:C.
      - unfold counted in C.
        destruct (firstChoice currentOptions v) as [x|] eqn:F; [|discriminate].
        apply andb_prop in C. destruct C as [T P].
        transitivity (list_sum (map (fun k => if String.eqb x k then 1 else 0)
                                    (map fst (initialVotes currentOptions)))).
        + f_equal. apply map_ext. intros k. unfold countedFor. rewrite F, T, P.
          now rewrite !andb_true_r.
        + apply list_sum_indicator; [apply initialVotes_NoDup|].
          apply initialVotes_keys. apply find_some in F. destruct F as [_ F].
          apply includes_In in F. split; [assumption|].
          apply negb_true_iff, String.eqb_neq in P. assumption.
      - apply list_sum_zero. intros k _.
        now rewrite countedFor_counted, C. }
    simpl. destruct (counted currentOptions v); simpl; lia.
Qed.

Lemma tallySum_counted (allVotes : list (list string))
      (currentOptions : list string) :
  tallySum (firstPlaceVotes allVotes currentOptions)
  = length (filter (counted currentOptions) allVotes).
Proof.
  unfold tallySum. rewrite firstPlaceVotes_map, map_map. simpl.
  rewrite <- votesFor_sum, map_map. reflexivity.
Qed.

(** When no candidate of the working set is falsy or [__proto__], a ballot
    that ranks one of them is counted. *)
Lemma tallySum_total (allVotes : list (list string))
      (currentOptions : list string) :
  (forall c, In c currentOptions -> c <> "" /\ c <> JS.protoKey) ->
  (forall vote, In vote allVotes -> exists c, In c vote /\ In c currentOptions) ->
  tallySum (firstPlaceVotes allVotes currentOptions) = length allVotes.
Proof.
  intros Hc Hv. rewrite tallySum_counted.
  f_equal. apply filter_all. intros v Hin.
  unfold counted.
  destruct (firstChoice currentOptions v) as [x|] eqn:F.
  - apply find_some in F. destruct F as [_ F]. apply includes_In in F.
    destruct (Hc x F) as [E P]. unfold JS.truthy.
    apply String.eqb_neq in E, P. now rewrite E, P.
  - destruct (Hv v Hin) as [c [H1 H2]].
    apply (proj1 (firstChoice_None currentOptions v) F c H1) in H2. contradiction.
Qed.

(** X2.  In every pass the tallies add up to the number of ballots the
    pass counts: those with a first choice in the working set that is
    neither the empty string nor [__proto__].  The tallies never add up to
    more than the number of ballots. *)
Theorem tallies_add_up (allVotes : list (list string))
        (currentOptions : list string) :
  tallySum (firstPlaceVotes allVotes currentOptions)
  = length (filter (counted currentOptions) allVotes)
  /\ tallySum (firstPlaceVotes allVotes currentOptions) <= totalVotes allVotes.
Proof.
  split; [apply tallySum_counted|].
  rewrite tallySum_counted. apply filter_length_le.
Qed.

(** X3.  When no candidate of the working set is the empty string or
    [__proto__] and every ballot ranks at least one candidate of the working
    set, no ballot is lost: the tallies of the pass add up to the number of
    ballots. *)
Theorem no_ballot_lost (allVotes : list (list string))
        (currentOptions : list string) :
  (forall c, In c currentOptions -> c <> "" /\ c <> JS.protoKey) ->
  (forall vote, In vote allVotes -> exists c, In c vote /\ In c currentOptions) ->
  tallySum (firstPlaceVotes allVotes currentOptions) = totalVotes allVotes.
Proof. apply tallySum_total. Qed.

Lemma no_ballot_lost_witness :
  tallySum (firstPlaceVotes [["A"; "B"]; ["B"; "A"]; ["C"; "B"]] ["A"; "B"])
  = totalVotes [["A"; "B"]; ["B"; "A"]; ["C"; "B"]].
Proof.
  apply (no_ballot_lost [["A"; "B"]; ["B"; "A"]; ["C"; "B"]] ["A"; "B"]).
  - intros c [<-|[<-|[]]]; split; discriminate.
  - intros v [<-|[<-|[<-|[]]]]; exists "B"; simpl; auto.
Defined.

Lemma reaches_In (allVotes : list (list string)) (cur final : list string) :
  reaches allVotes cur final -> forall c, In c final -> In c cur.
Proof.
  induction 1 as [cur | cur next final R _ IH]; [auto|].
  intros c Hc. apply round_Continue in R. apply R. now apply IH.
Qed.

Lemma reaches_nonempty (allVotes : list (list string)) (cur final : list string) :
  reaches allVotes cur final -> cur <> [] -> final <> [].
Proof.
  induction 1 as [cur | cur next final R _ IH]; [auto|].
  intros _. apply IH. apply round_Continue in R. tauto.
Qed.

Lemma winner_tops (allVotes : list (list string)) (fuel : nat)
      (currentOptions : list string) (w : string) :
  2 <= length currentOptions -> w <> JS.protoKey ->
  loop fuel allVotes currentOptions = Some (Returns w) ->
  exists final n,
    reaches allVotes currentOptions final /\ 2 <= length final /\
    In w final /\
    JS.getProp (firstPlaceVotes allVotes final) w = Some n /\
    (forall c m, JS.getProp (firstPlaceVotes allVotes final) c = Some m -> m <= n) /\
    (round allVotes final = Done (Returns w) \/
     round allVotes final = Continue [w]).
Proof.
  revert currentOptions.
  induction fuel as [|fuel IH]; intros cur L P H; [discriminate|].
  cbn [loop] in H.
  pose proof (round_ends allVotes cur) as E.
  destruct (round allVotes cur) as [d|next] eqn:R.
  - injection H as ->.
    inversion E as [c Hc | w' N M | | lowest w' r N M Lo Re El |]; subst.
    + simpl in L. lia.
    + apply majorityWinner_spec in M. destruct M as [Hin X].
      apply exceedsThreshold_spec in X. destruct X as [n [T Hn]].
      exists cur, n. repeat split; try assumption; [constructor | | now left].
      intros c m Tc. destruct (string_dec c w) as [->|Ne]; [rewrite T in Tc; injection Tc; lia|].
      apply tally_Some in T, Tc.
      destruct T as [_ [_ ->]], Tc as [_ [_ ->]].
      pose proof (votesFor_disjoint cur c w allVotes Ne). lia.
    + destruct (all_eliminated _ _ _ Re) as [A _].
      assert (In w cur) as Hin by now apply round_Returns_In in R.
      exists cur, lowest. repeat split; try assumption; [constructor | auto | | now left].
      intros c m Tc. assert (In c cur) as Hc by (apply tally_Some in Tc; tauto).
      rewrite (A c Hc) in Tc. injection Tc. lia.
  - inversion E as [| | | | lowest N M Lo Re Eq]; subst.
    destruct (Nat.eq_dec (length (remainingOptions allVotes cur lowest)) 1) as [One|More].
    + destruct (remainingOptions allVotes cur lowest) as [|x [|y l]] eqn:Rem;
        try discriminate.
      destruct fuel as [|fuel]; [discriminate|]. cbn [loop] in H.
      rewrite round_single in H. injection H as ->.
      assert (In w cur) as Hin.
      { apply round_Continue in R. apply R. now left. }
      assert (exists n, JS.getProp (firstPlaceVotes allVotes cur) w = Some n) as [n T]
          by (eexists; apply tally_Some; eauto).
      exists cur, n. repeat split; try assumption; [constructor | | now right].
      intros c m Tc.
      destruct (Nat.eq_dec m lowest) as [->|Ne].
      * destruct (lowestVoteCount_least _ _ _ Lo) as [_ Least]. now apply (Least w).
      * assert (In c (remainingOptions allVotes cur lowest)) as Hc.
        { apply remainingOptions_In. split; [apply tally_Some in Tc; tauto|].
          rewrite Tc. congruence. }
        rewrite Rem in Hc. destruct Hc as [<-|[]].
        rewrite T in Tc. injection Tc. lia.
    + assert (2 <= length (remainingOptions allVotes cur lowest)) as L2.
      { destruct (remainingOptions allVotes cur lowest) as [|x [|y l]];
          simpl in *; [congruence | lia | lia]. }
      destruct (IH _ L2 P H) as [final [n [Rch Rest]]].
      exists final, n. split; [|assumption].
      now apply reaches_next with (next := remainingOptions allVotes cur lowest).
Qed.

(** X4.  With at least two candidates, the candidate returned, when it is
    not [__proto__], holds the highest tally of the last pass that tallied:
    no candidate of that pass has more votes than the winner. *)
Theorem winner_tops_last_tally (fuel : nat) (options : list string)
        (allVotes : list (list string)) (w : string) :
  allVotes <> [] -> 2 <= length options -> w <> JS.protoKey ->
  calculateRankedChoiceWinner fuel options allVotes = Some (Returns w) ->
  exists final n,
    reaches allVotes options final /\ 2 <= length final /\
    In w final /\
    JS.getProp (firstPlaceVotes allVotes final) w = Some n /\
    (forall c m, JS.getProp (firstPlaceVotes allVotes final) c = Some m -> m <= n) /\
    (round allVotes final = Done (Returns w) \/
     round allVotes final = Continue [w]).
Proof.
  intros Hv L P H. rewrite calculate_nonempty in H by assumption.
  now apply winner_tops with (fuel := fuel).
Qed.

Lemma winner_tops_last_tally_witness :
  exists final n,
    reaches [["A"]; ["A"]; ["B"]; ["B"]; ["C"; "B"]] ["A"; "B"; "C"] final /\
    2 <= length final /\ In "B" final /\
    JS.getProp (firstPlaceVotes [["A"]; ["A"]; ["B"]; ["B"]; ["C"; "B"]] final) "B"
    = Some n /\
    (forall c m,
        JS.getProp (firstPlaceVotes [["A"]; ["A"]; ["B"]; ["B"]; ["C"; "B"]] final) c
        = Some m -> m <= n) /\
    (round [["A"]; ["A"]; ["B"]; ["B"]; ["C"; "B"]] final = Done (Returns "B") \/
     round [["A"]; ["A"]; ["B"]; ["B"]; ["C"; "B"]] final = Continue ["B"]).
Proof.
  apply (winner_tops_last_tally 3 ["A"; "B"; "C"]
           [["A"]; ["A"]; ["B"]; ["B"]; ["C"; "B"]] "B").
  - discriminate.
  - simpl. lia.
  - discriminate.
  - reflexivity.
Defined.

Lemma filter_Permutation {A : Type} (p : A -> bool) (l l' : list A) :
  Permutation l l' -> Permutation (filter p l) (filter p l').
Proof.
  induction 1 as [| x l l' _ IH | x y l | l l' l'' _ IH1 _ IH2]; simpl.
  - constructor.
  - destruct (p x); [now constructor | assumption].
  - destruct (p x), (p y); try reflexivity. constructor.
  - now transitivity (filter p l').
Qed.

Lemma tally_same_members (allVotes : list (list string)) (l l' : list string)
      (c : string) :
  (forall x, In x l <-> In x l') ->
  JS.getProp (firstPlaceVotes allVotes l) c
  = JS.getProp (firstPlaceVotes allVotes l') c.
Proof.
  intros H. rewrite !tally_votesFor, (votesFor_same_members l l' c allVotes H).
  assert (JS.includes l c = JS.includes l' c) as ->; [|reflexivity].
  destruct (JS.includes l' c) eqn:E.
  - apply includes_In. apply H. now apply includes_In.
  - apply includes_false. rewrite H. now apply includes_false.
Qed.

Lemma lowestVoteCount_same_members (allVotes : list (list string))
      (l l' : list string) :
  (forall x, In x l <-> In x l') ->
  lowestVoteCount allVotes l = lowestVoteCount allVotes l'.
Proof.
  intros H.
  destruct (lowestVoteCount allVotes l) as [m|] eqn:L,
           (lowestVoteCount allVotes l') as [m'|] eqn:L'; try reflexivity.
  - destruct (lowestVoteCount_least _ _ _ L) as [[c [_ T]] Least].
    destruct (lowestVoteCount_least _ _ _ L') as [[c' [_ T']] Least'].
    rewrite (tally_same_members allVotes l l' c H) in T.
    rewrite <- (tally_same_members allVotes l l' c' H) in T'.
    apply Least' in T. apply Least in T'. f_equal. lia.
  - exfalso. rewrite lowestVoteCount_None in L'.
    assert (lowestVoteCount allVotes l = None) as L0
        by (apply lowestVoteCount_None; intros c Hc; apply L'; now apply H).
    congruence.
  - exfalso. rewrite lowestVoteCount_None in L.
    assert (lowestVoteCount allVotes l' = None) as L0
        by (apply lowestVoteCount_None; intros c Hc; apply L; now apply H).
    congruence.
Qed.

Lemma remainingOptions_Permutation (allVotes : list (list string))
      (l l' : list string) (lowest : nat) :
  Permutation l l' ->
  Permutation (remainingOptions allVotes l lowest)
              (remainingOptions allVotes l' lowest).
Proof.
  intros P.
  assert (forall x, In x l <-> In x l') as H
      by (intros x; split; apply Permutation_in; [assumption | now symmetry]).
  unfold remainingOptions.
  rewrite (filter_ext
             (fun option => negb (JS.includes (eliminatedOptions allVotes l lowest) option))
             (fun option => negb (JS.includes (eliminatedOptions allVotes l' lowest) option))).
  - now apply filter_Permutation.
  - intros c. f_equal.
    destruct (JS.includes (eliminatedOptions allVotes l' lowest) c) eqn:E.
    + apply includes_In, eliminatedOptions_In.
      rewrite (tally_same_members allVotes l l' c H).
      now apply eliminatedOptions_In, includes_In.
    + apply includes_false. rewrite eliminatedOptions_In.
      rewrite (tally_same_members allVotes l l' c H).
      rewrite <- eliminatedOptions_In. now apply includes_false.
Qed.

(** A pass over the same candidates in another order ends the same way,
    unless it ends in the fallback. *)
Lemma round_Permutation (allVotes : list (list string)) (l l' : list string) :
  Permutation l l' ->
  tiedOut allVotes l \/
  match round allVotes l, round allVotes l' with
  | Done d, Done d' => d = d'
  | Continue next, Continue next' => Permutation next next'
  | _, _ => False
  end.
Proof.
  intros P.
  assert (forall x, In x l <-> In x l') as H
      by (intros x; split; apply Permutation_in; [assumption | now symmetry]).
  destruct (Nat.eq_dec (length l) 1) as [One|N].
  - right. destruct l as [|c [|b r]]; try discriminate.
    apply Permutation_length_1_inv in P. subst l'. reflexivity.
  - assert (length l' <> 1) as N' by now rewrite <- (Permutation_length P).
    rewrite (round_tally _ _ N), (round_tally _ _ N').
    rewrite <- (majorityWinner_same_members allVotes l l' H).
    rewrite <- (lowestVoteCount_same_members allVotes l l' H).
    destruct (majorityWinner allVotes l) as [w|] eqn:M; [now right|].
    destruct (lowestVoteCount allVotes l) as [lowest|] eqn:L; [|now right].
    pose proof (remainingOptions_Permutation allVotes l l' lowest P) as PR.
    destruct (remainingOptions allVotes l lowest) as [|x next] eqn:R.
    + left. exists lowest. auto.
    + right. destruct (remainingOptions allVotes l' lowest) as [|x' next'] eqn:R'.
      * now apply Permutation_sym, Permutation_nil in PR.
      * assumption.
Qed.

Lemma loop_Permutation (allVotes : list (list string)) (fuel : nat)
      (l l' : list string) :
  Permutation l l' ->
  loop fuel allVotes l' = loop fuel allVotes l \/
  exists final, reaches allVotes l final /\ tiedOut allVotes final.
Proof.
  revert l l'. induction fuel as [|fuel IH]; intros l l' P; [now left|].
  destruct (round_Permutation allVotes l l' P) as [T|R].
  - right. exists l. split; [constructor | assumption].
  - cbn [loop].
    destruct (round allVotes l) as [d|next] eqn:E,
             (round allVotes l') as [d'|next'] eqn:E'; try contradiction.
    + left. now subst.
    + destruct (IH next next' R) as [Eq|[final [Rch T]]]; [now left|].
      right. exists final. split; [|assumption].
      now apply reaches_next with (next := next).
Qed.

(** X5.  The order of the catalog changes nothing, unless the loop ends in
    the fallback: for two catalogs that are permutations of each other the
    result is the same, or some pass is left with all its candidates tied at
    the lowest tally and no majority. *)
Theorem catalog_order_matters_only_in_fallback (fuel : nat)
        (options options' : list string) (allVotes : list (list string)) :
  Permutation options options' ->
  calculateRankedChoiceWinner fuel options' allVotes
  = calculateRankedChoiceWinner fuel options allVotes
  \/ exists final, reaches allVotes options final /\ tiedOut allVotes final.
Proof.
  intros P. unfold calculateRankedChoiceWinner.
  destruct (length allVotes =? 0); [now left|].
  now apply loop_Permutation.
Qed.

Lemma catalog_order_matters_only_in_fallback_witness :
  calculateRankedChoiceWinner 3 ["C"; "A"; "B"]
    [["A"; "B"; "C"]; ["B"; "A"; "C"]; ["C"; "B"; "A"]; ["C"; "A"; "B"]]
  = calculateRankedChoiceWinner 3 ["A"; "B"; "C"]
      [["A"; "B"; "C"]; ["B"; "A"; "C"]; ["C"; "B"; "A"]; ["C"; "A"; "B"]]
  \/ exists final,
      reaches [["A"; "B"; "C"]; ["B"; "A"; "C"]; ["C"; "B"; "A"]; ["C"; "A"; "B"]]
              ["A"; "B"; "C"] final /\
      tiedOut [["A"; "B"; "C"]; ["B"; "A"; "C"]; ["C"; "B"; "A"]; ["C"; "A"; "B"]]
              final.
Proof.
  apply (catalog_order_matters_only_in_fallback 3 ["A"; "B"; "C"] ["C"; "A"; "B"]).
  apply Permutation_sym. apply (Permutation_cons_append ["A"; "B"] "C").
Defined.

(** ** The voting page *)

Lemma get_cons (x : value) (a : list value) (i : nat) :
  JSArray.get (x :: a) (S i) = JSArray.get a i.
Proof. reflexivity. Qed.

Lemma set_cons (x : value) (a : list value) (i : nat) (v : value) :
  JSArray.set (x :: a) (S i) v = x :: JSArray.set a i v.
Proof.
  unfold JSArray.set. simpl length.
  change (S i <? S (length a)) with (i <? length a).
  destruct (i <? length a); reflexivity.
Qed.

Lemma handleMoveUp_cons (x : value) (a : list value) (i : nat) :
  VotingPage.handleMoveUp (x :: a) (S (S i))
  = x :: VotingPage.handleMoveUp a (S i).
Proof.
  unfold VotingPage.handleMoveUp. cbn [Nat.eqb Nat.sub].
  now rewrite !get_cons, !set_cons, Nat.sub_0_r.
Qed.

Lemma handleMoveDown_cons (x : value) (a : list value) (i : nat) :
  VotingPage.handleMoveDown (x :: a) (S i)
  = x :: VotingPage.handleMoveDown a i.
Proof.
  unfold VotingPage.handleMoveDown.
  assert ((Z.of_nat (S i) =? Z.of_nat (length (x :: a)) - 1)%Z
          = (Z.of_nat i =? Z.of_nat (length a) - 1)%Z) as ->.
  { simpl length. destruct (Z.of_nat i =? Z.of_nat (length a) - 1)%Z eqn:E.
    - apply Z.eqb_eq in E. apply Z.eqb_eq. lia.
    - apply Z.eqb_neq in E. apply Z.eqb_neq. lia. }
  destruct (Z.of_nat i =? Z.of_nat (length a) - 1)%Z; [reflexivity|].
  cbn [Nat.add]. now rewrite !get_cons, !set_cons.
Qed.

Lemma handleMoveUp_swap (l1 l2 : list value) (x y : value) :
  VotingPage.handleMoveUp (l1 ++ x :: y :: l2) (S (length l1))
  = l1 ++ y :: x :: l2.
Proof.
  induction l1 as [|a l1 IH].
  - reflexivity.
  - simpl app. simpl length. rewrite handleMoveUp_cons. now rewrite IH.
Qed.

Lemma handleMoveDown_swap (l1 l2 : list value) (x y : value) :
  VotingPage.handleMoveDown (l1 ++ x :: y :: l2) (length l1)
  = l1 ++ y :: x :: l2.
Proof.
  induction l1 as [|a l1 IH].
  - unfold VotingPage.handleMoveDown. simpl length.
    assert ((Z.of_nat 0 =? Z.of_nat (S (S (length l2))) - 1)%Z = false) as ->
        by (apply Z.eqb_neq; lia).
    reflexivity.
  - simpl app. simpl length. rewrite handleMoveDown_cons. now rewrite IH.
Qed.

Lemma handleMoveDown_last (a : list value) (i : nat) :
  S i = length a -> VotingPage.handleMoveDown a i = a.
Proof.
  intros H. unfold VotingPage.handleMoveDown.
  assert ((Z.of_nat i =? Z.of_nat (length a) - 1)%Z = true) as ->
      by (apply Z.eqb_eq; lia).
  reflexivity.
Qed.

(** Every index with a neighbour after it sits between a front and a tail. *)
Lemma split_neighbours (a : list value) (i : nat) :
  S i < length a ->
  exists l1 x y l2, a = l1 ++ x :: y :: l2 /\ length l1 = i.
Proof.
  revert a. induction i as [|i IH]; intros a H.
  - destruct a as [|x [|y l2]]; simpl in H; try lia. now exists [], x, y, l2.
  - destruct a as [|z a]; simpl in H; [lia|].
    destruct (IH a) as [l1 [x [y [l2 [-> L]]]]]; [lia|].
    exists (z :: l1), x, y, l2. simpl. auto.
Qed.

(** X6.  The up arrow exchanges an entry with the one before it and the
    down arrow with the one after it, every other entry staying in place;
    the up arrow does nothing on the first entry and the down arrow nothing
    on the last. *)
Theorem arrows_swap_neighbours (l1 l2 : list value) (x y : value) :
  VotingPage.handleMoveUp (l1 ++ x :: y :: l2) (S (length l1))
  = l1 ++ y :: x :: l2
  /\ VotingPage.handleMoveDown (l1 ++ x :: y :: l2) (length l1)
     = l1 ++ y :: x :: l2
  /\ VotingPage.handleMoveUp (x :: l2) 0 = x :: l2
  /\ VotingPage.handleMoveDown (l1 ++ [x]) (length l1) = l1 ++ [x].
Proof.
  split; [apply handleMoveUp_swap|]. split; [apply handleMoveDown_swap|].
  split; [reflexivity|]. apply handleMoveDown_last.
  rewrite length_app. simpl. lia.
Qed.

(** X7.  The two arrows undo each other: moving an entry up and then the
    entry that took its place down, or down and then up, gives back the
    ranking; so does pressing the same arrow at the same place twice. *)
Theorem arrows_undo_each_other (options : list value) (index : nat) :
  S index < length options ->
  VotingPage.handleMoveDown (VotingPage.handleMoveUp options (S index)) index
  = options
  /\ VotingPage.handleMoveUp (VotingPage.handleMoveDown options index) (S index)
     = options
  /\ VotingPage.handleMoveUp (VotingPage.handleMoveUp options (S index)) (S index)
     = options
  /\ VotingPage.handleMoveDown (VotingPage.handleMoveDown options index) index
     = options.
Proof.
  intros H. destruct (split_neighbours options index H) as [l1 [x [y [l2 [-> <-]]]]].
  repeat split;
    repeat first [rewrite handleMoveUp_swap | rewrite handleMoveDown_swap];
    reflexivity.
Qed.

Lemma arrows_undo_each_other_witness :
  VotingPage.handleMoveDown
    (VotingPage.handleMoveUp [Str "A"; Str "B"; Str "C"] 2) 1
  = [Str "A"; Str "B"; Str "C"].
Proof.
  apply (arrows_undo_each_other [Str "A"; Str "B"; Str "C"] 1).
  simpl. lia.
Defined.

Lemma handleClick_Permutation (a : list value) (c : VotingPage.click) :
  VotingPage.indexOfClick c < length a ->
  Permutation a (VotingPage.handleClick a c).
Proof.
  destruct c as [[|i]|i]; simpl; intros H.
  - reflexivity.
  - destruct (split_neighbours a i H) as [l1 [x [y [l2 [-> <-]]]]].
    rewrite handleMoveUp_swap. apply Permutation_app_head. constructor.
  - destruct (Nat.eq_dec (S i) (length a)) as [E|N].
    + now rewrite handleMoveDown_last.
    + assert (S i < length a) as H' by lia.
      destruct (split_neighbours a i H') as [l1 [x [y [l2 [-> <-]]]]].
      rewrite handleMoveDown_swap. apply Permutation_app_head. constructor.
Qed.

Lemma handleClicks_Permutation (clicks : list VotingPage.click) (a : list value) :
  Forall (fun c => VotingPage.indexOfClick c < length a) clicks ->
  Permutation a (VotingPage.handleClicks a clicks).
Proof.
  revert a. induction clicks as [|c clicks IH]; intros a H; simpl; [reflexivity|].
  inversion H as [|? ? Hc Hr]; subst.
  pose proof (handleClick_Permutation a c Hc) as P.
  rewrite P at 1. apply IH.
  rewrite <- (Permutation_length P). assumption.
Qed.

(** X8.  Whatever arrows a participant presses, the ballot the page submits
    is a permutation of the options it was opened with: no option is lost,
    added or repeated.  The page submits nothing when it has no options. *)
Theorem submitted_ballot_is_a_ranking (catalog : list string)
        (clicks : list VotingPage.click) :
  Forall (fun c => VotingPage.indexOfClick c < length catalog) clicks ->
  exists ballot,
    VotingPage.handleClicks (map Str catalog) clicks = map Str ballot /\
    Permutation catalog ballot /\
    VotingPage.handleSubmitVote (VotingPage.handleClicks (map Str catalog) clicks)
    = match catalog with
      | [] => inl "There are no options to vote on."
      | _ => inr (map Str ballot)
      end.
Proof.
  intros H.
  assert (Permutation (map Str catalog)
                      (VotingPage.handleClicks (map Str catalog) clicks)) as P.
  { apply handleClicks_Permutation. now rewrite length_map. }
  destruct (Permutation_map_inv Str catalog (Permutation_sym P))
    as [ballot [E Pb]].
  exists ballot. split; [assumption|]. split; [assumption|].
  rewrite E. unfold VotingPage.handleSubmitVote. rewrite length_map.
  rewrite <- (Permutation_length Pb).
  destruct catalog; reflexivity.
Qed.

Lemma submitted_ballot_is_a_ranking_witness :
  exists ballot,
    VotingPage.handleClicks (map Str ["A"; "B"; "C"])
      [VotingPage.Up 2; VotingPage.Down 0; VotingPage.Up 0]
    = map Str ballot /\
    Permutation ["A"; "B"; "C"] ballot /\
    VotingPage.handleSubmitVote
      (VotingPage.handleClicks (map Str ["A"; "B"; "C"])
         [VotingPage.Up 2; VotingPage.Down 0; VotingPage.Up 0])
    = inr (map Str ballot).
Proof.
  apply (submitted_ballot_is_a_ranking ["A"; "B"; "C"]
           [VotingPage.Up 2; VotingPage.Down 0; VotingPage.Up 0]).
  repeat constructor.
Defined.

Lemma handleClick_shift (x : value) (a : list value) (c : VotingPage.click) :
  VotingPage.handleClick (x :: a) (VotingPage.shiftClick c)
  = x :: VotingPage.handleClick a c.
Proof.
  destruct c as [[|i]|i]; simpl.
  - reflexivity.
  - apply handleMoveUp_cons.
  - apply handleMoveDown_cons.
Qed.

Lemma handleClicks_shift (x : value) (clicks : list VotingPage.click)
      (a : list value) :
  VotingPage.handleClicks (x :: a) (map VotingPage.shiftClick clicks)
  = x :: VotingPage.handleClicks a clicks.
Proof.
  revert a. induction clicks as [|c clicks IH]; intros a; simpl; [reflexivity|].
  now rewrite handleClick_shift, IH.
Qed.

Lemma shiftClick_enabled (c : VotingPage.click) (n : nat) :
  VotingPage.enabled n c -> VotingPage.enabled (S n) (VotingPage.shiftClick c).
Proof. destruct c as [[|i]|i]; simpl; lia. Qed.

(** Every permutation of an array is reached by clicks on arrows that are
    not disabled. *)
Lemma clicks_reach (a b : list value) :
  Permutation a b ->
  exists clicks,
    Forall (VotingPage.enabled (length a)) clicks /\
    VotingPage.handleClicks a clicks = b.
Proof.
  induction 1 as [| x l l' _ [clicks [F E]] | x y l
                  | l l' l'' P1 [c1 [F1 E1]] _ [c2 [F2 E2]]].
  - exists []. split; [constructor | reflexivity].
  - exists (map VotingPage.shiftClick clicks). split.
    + apply Forall_map. revert F. apply Forall_impl. intros c.
      apply shiftClick_enabled.
    + now rewrite handleClicks_shift, E.
  - exists [VotingPage.Up 1]. split.
    + constructor; [simpl; lia | constructor].
    + reflexivity.
  - exists (c1 ++ c2). split.
    + apply Forall_app. split; [assumption|].
      now rewrite (Permutation_length P1).
    + unfold VotingPage.handleClicks in *. now rewrite fold_left_app, E1.
Qed.

(** X9.  Every ranking can be entered: for every permutation of the options
    shown there are clicks, all on arrows that are not disabled, after which
    the page submits that permutation. *)
Theorem every_ranking_can_be_entered (catalog ballot : list string) :
  Permutation catalog ballot -> catalog <> [] ->
  exists clicks,
    Forall (VotingPage.enabled (length catalog)) clicks /\
    VotingPage.handleSubmitVote (VotingPage.handleClicks (map Str catalog) clicks)
    = inr (map Str ballot).
Proof.
  intros P Ne.
  destruct (clicks_reach (map Str catalog) (map Str ballot)
                         (Permutation_map Str P)) as [clicks [F E]].
  exists clicks. rewrite length_map in F. split; [assumption|].
  rewrite E. unfold VotingPage.handleSubmitVote. rewrite length_map.
  rewrite <- (Permutation_length P). now destruct catalog.
Qed.

Lemma every_ranking_can_be_entered_witness :
  exists clicks,
    Forall (VotingPage.enabled (length ["A"; "B"; "C"])) clicks /\
    VotingPage.handleSubmitVote
      (VotingPage.handleClicks (map Str ["A"; "B"; "C"]) clicks)
    = inr (map Str ["C"; "A"; "B"]).
Proof.
  apply (every_ranking_can_be_entered ["A"; "B"; "C"] ["C"; "A"; "B"]).
  - apply Permutation_sym. apply (Permutation_cons_append ["A"; "B"] "C").
  - discriminate.
Defined.

(** X10.  When every ballot is a ranking of the whole catalog, as the
    voting page submits them, and no option is the empty string or
    [__proto__], no ballot is ever exhausted: in every pass the loop reaches
    the tallies add up to the number of ballots. *)
Theorem full_rankings_are_never_exhausted (options : list string)
        (allVotes : list (list string)) (final : list string) :
  options <> [] ->
  (forall c, In c options -> c <> "" /\ c <> JS.protoKey) ->
  (forall vote, In vote allVotes -> Permutation options vote) ->
  reaches allVotes options final ->
  tallySum (firstPlaceVotes allVotes final) = totalVotes allVotes.
Proof.
  intros Ne Hc Hv R. apply tallySum_total.
  - intros c Hin. apply Hc. now apply (reaches_In _ _ _ R).
  - intros v Hin. pose proof (reaches_nonempty _ _ _ R Ne) as Nf.
    destruct final as [|c final]; [congruence|].
    exists c. split; [|now left].
    apply (Permutation_in _ (Hv v Hin)).
    apply (reaches_In _ _ _ R). now left.
Qed.

Lemma full_rankings_are_never_exhausted_witness :
  tallySum (firstPlaceVotes
              [["A"; "B"; "C"]; ["B"; "A"; "C"]; ["C"; "B"; "A"]; ["C"; "A"; "B"]]
              ["C"])
  = totalVotes [["A"; "B"; "C"]; ["B"; "A"; "C"]; ["C"; "B"; "A"]; ["C"; "A"; "B"]].
Proof.
  apply (full_rankings_are_never_exhausted ["A"; "B"; "C"]
           [["A"; "B"; "C"]; ["B"; "A"; "C"]; ["C"; "B"; "A"]; ["C"; "A"; "B"]]
           ["C"]).
  - discriminate.
  - intros c [<-|[<-|[<-|[]]]]; split; discriminate.
  - intros v [<-|[<-|[<-|[<-|[]]]]].
    + reflexivity.
    + apply perm_swap.
    + apply Permutation_rev with (l := ["A"; "B"; "C"]).
    + apply Permutation_sym. apply (Permutation_cons_append ["A"; "B"] "C").
  - apply reaches_next with (next := ["C"]); [reflexivity | constructor].
Defined.

(** ** Closing the voting *)

Lemma objectValues_Permutation {A : Type} (o : list (string * A)) :
  Permutation (objectValues o) (map snd o).
Proof.
  unfold objectValues. apply Permutation_map.
  rewrite (sort_perm cmpKey).
  apply (filter_split_perm (fun e => JS.isIndex (fst e))).
Qed.

Lemma objectValues_nil {A : Type} (o : list (string * A)) :
  objectValues o = [] <-> o = [].
Proof.
  split.
  - intros H. pose proof (objectValues_Permutation o) as P. rewrite H in P.
    apply Permutation_nil in P. now apply map_eq_nil in P.
  - now intros ->.
Qed.

Lemma calculate_Permutation (fuel : nat) (options : list string)
      (allVotes allVotes' : list (list string)) :
  Permutation allVotes allVotes' ->
  calculateRankedChoiceWinner fuel options allVotes
  = calculateRankedChoiceWinner fuel options allVotes'.
Proof.
  intros P. unfold calculateRankedChoiceWinner.
  rewrite (Permutation_length P).
  destruct (length allVotes' =? 0); [reflexivity|].
  apply loop_ext with (options := options); [|auto].
  intros cur _. apply round_ext.
  - now apply firstPlaceVotes_Permutation.
  - now apply Permutation_length.
Qed.

(** X11.  Closing the voting of a session whose catalog is not empty and
    holds [__proto__] at most once either is refused with an error, exactly
    when no ballot is stored, or asks to store [isVotingClosed: true] and a
    winner that is one of the options of the session: the handler never
    rejects, and never stores [undefined] or a text that is not an option. *)
Theorem closing_stores_an_option (data : Session.t) :
  Session.options data <> [] ->
  count_occ string_dec (Session.options data) JS.protoKey <= 1 ->
  (Session.votes data = [] /\
   forall fuel,
     VotingPage.handleCloseVoting fuel true (Some data)
     = Some (VotingPage.SetError "Cannot close voting with no votes."))
  \/ (Session.votes data <> [] /\
      exists w, In w (Session.options data) /\
        forall fuel, length (Session.options data) <= fuel ->
          VotingPage.handleCloseVoting fuel true (Some data)
          = Some (VotingPage.UpdateDoc true (Str w))).
Proof.
  intros Ho Hp. unfold VotingPage.handleCloseVoting.
  destruct (Session.votes data) as [|v vs] eqn:V.
  - left. split; reflexivity.
  - right. split; [discriminate|].
    assert (objectValues (v :: vs) <> []) as Ne
        by (intros H; apply objectValues_nil in H; discriminate).
    destruct (loop_returns (objectValues (v :: vs))
                (length (Session.options data)) (Session.options data)
                Ho Hp (le_n _)) as [w [Hw Hin]].
    exists w. split; [assumption|]. intros fuel Hf.
    destruct (objectValues (v :: vs)) as [|b bs] eqn:O; [congruence|].
    cbn [length Nat.eqb].
    rewrite calculate_nonempty by discriminate.
    now rewrite (loop_more_fuel _ _ fuel _ _ Hw Hf).
Qed.

Lemma closing_stores_an_option_witness :
  (Session.votes
     (Session.make "Dinner" ["A"; "B"]
        [("u1", ["A"; "B"]); ("u2", ["B"; "A"]); ("u3", ["B"; "A"])]
        "u1" false None) = [] /\
   forall fuel,
     VotingPage.handleCloseVoting fuel true
       (Some (Session.make "Dinner" ["A"; "B"]
                [("u1", ["A"; "B"]); ("u2", ["B"; "A"]); ("u3", ["B"; "A"])]
                "u1" false None))
     = Some (VotingPage.SetError "Cannot close voting with no votes."))
  \/ (Session.votes
        (Session.make "Dinner" ["A"; "B"]
           [("u1", ["A"; "B"]); ("u2", ["B"; "A"]); ("u3", ["B"; "A"])]
           "u1" false None) <> [] /\
      exists w, In w ["A"; "B"] /\
        forall fuel, 2 <= fuel ->
          VotingPage.handleCloseVoting fuel true
            (Some (Session.make "Dinner" ["A"; "B"]
                     [("u1", ["A"; "B"]); ("u2", ["B"; "A"]); ("u3", ["B"; "A"])]
                     "u1" false None))
          = Some (VotingPage.UpdateDoc true (Str w))).
Proof.
  apply (closing_stores_an_option
           (Session.make "Dinner" ["A"; "B"]
              [("u1", ["A"; "B"]); ("u2", ["B"; "A"]); ("u3", ["B"; "A"])]
              "u1" false None)).
  - discriminate.
  - vm_compute. repeat constructor.
Defined.

(** X12.  What closing the voting stores depends on the ballots only, not
    on who cast them nor on the order in which [Object.values] lists them:
    two sessions with the same options and the same ballots, up to order,
    are closed alike. *)
Theorem closing_ignores_ballot_order (fuel : nat) (db : bool)
        (data data' : Session.t) :
  Session.options data = Session.options data' ->
  Permutation (map snd (Session.votes data)) (map snd (Session.votes data')) ->
  VotingPage.handleCloseVoting fuel db (Some data)
  = VotingPage.handleCloseVoting fuel db (Some data').
Proof.
  intros Eo P. unfold VotingPage.handleCloseVoting.
  destruct db; [|reflexivity].
  assert (Permutation (objectValues (Session.votes data))
                      (objectValues (Session.votes data'))) as PV.
  { rewrite (objectValues_Permutation (Session.votes data)), P.
    symmetry. apply objectValues_Permutation. }
  rewrite (Permutation_length PV), Eo.
  now rewrite (calculate_Permutation fuel _ _ _ PV).
Qed.

Lemma closing_ignores_ballot_order_witness :
  VotingPage.handleCloseVoting 2 true
    (Some (Session.make "Dinner" ["A"; "B"]
             [("u1", ["A"; "B"]); ("u2", ["B"; "A"])] "u1" false None))
  = VotingPage.handleCloseVoting 2 true
      (Some (Session.make "Lunch" ["A"; "B"]
               [("7", ["B"; "A"]); ("u9", ["A"; "B"])] "u9" false None)).
Proof.
  apply (closing_ignores_ballot_order 2 true
           (Session.make "Dinner" ["A"; "B"]
              [("u1", ["A"; "B"]); ("u2", ["B"; "A"])] "u1" false None)
           (Session.make "Lunch" ["A"; "B"]
              [("7", ["B"; "A"]); ("u9", ["A"; "B"])] "u9" false None)).
  - reflexivity.
  - apply perm_swap.
Defined.

(** ** The options page *)

Lemma handleAddOption_step (trim : string -> string)
      (st : CreateOptionsPage.state) (newOption : string) (updated : bool) :
  CreateOptionsPage.options (CreateOptionsPage.handleAddOption trim st newOption updated)
  = CreateOptionsPage.options st
  \/ (CreateOptionsPage.options
        (CreateOptionsPage.handleAddOption trim st newOption updated)
      = CreateOptionsPage.options st ++ [trim newOption]
      /\ trim newOption <> ""
      /\ length (CreateOptionsPage.options st) < 10).
Proof.
  unfold CreateOptionsPage.handleAddOption.
  destruct (String.eqb (trim newOption) "") eqn:E; [now left|].
  destruct (10 <=? length (CreateOptionsPage.options st)) eqn:L; [now left|].
  destruct updated; [|now left].
  right. apply String.eqb_neq in E. apply Nat.leb_gt in L. simpl. auto.
Qed.

(** X13.  Whatever is typed and whether or not the writes succeed, the list
    of options of the page only grows at its end, by trimmed entries that are
    not empty, and never beyond ten entries. *)
Theorem options_only_grow (trim : string -> string)
        (st : CreateOptionsPage.state) (inputs : list (string * bool)) :
  length (CreateOptionsPage.options st) <= 10 ->
  length (CreateOptionsPage.options (CreateOptionsPage.addAll trim st inputs))
  <= 10
  /\ exists added,
      CreateOptionsPage.options (CreateOptionsPage.addAll trim st inputs)
      = CreateOptionsPage.options st ++ added
      /\ Forall (fun s => s <> "" /\ exists i, In i inputs /\ s = trim (fst i))
                added.
Proof.
  revert st. induction inputs as [|[n ok] inputs IH]; intros st L.
  - split; [assumption|]. exists []. split; [now rewrite app_nil_r | constructor].
  - unfold CreateOptionsPage.addAll in *. cbn [fold_left fst snd].
    destruct (handleAddOption_step trim st n ok) as [E|[E [Hn Hl]]].
    + destruct (IH (CreateOptionsPage.handleAddOption trim st n ok)) as [L' [added [Ea Fa]]];
        [rewrite E; assumption|].
      split; [assumption|]. exists added. rewrite Ea, E. split; [reflexivity|].
      revert Fa. apply Forall_impl. intros s [Hs [i [Hi Es]]].
      split; [assumption|]. exists i. split; [now right | assumption].
    + destruct (IH (CreateOptionsPage.handleAddOption trim st n ok)) as [L' [added [Ea Fa]]];
        [rewrite E, length_app; simpl; lia|].
      split; [assumption|]. exists (trim n :: added).
      rewrite Ea, E, <- app_assoc. split; [reflexivity|].
      constructor.
      * split; [assumption|]. exists (n, ok). split; [now left | reflexivity].
      * revert Fa. apply Forall_impl. intros s [Hs [i [Hi Es]]].
        split; [assumption|]. exists i. split; [now right | assumption].
Qed.

Lemma options_only_grow_witness :
  length (CreateOptionsPage.options
            (CreateOptionsPage.addAll (fun s => s)
               (CreateOptionsPage.make ["A"] "")
               [("", true); ("B", false); ("C", true)])) <= 10.
Proof.
  apply (options_only_grow (fun s => s) (CreateOptionsPage.make ["A"] "")
           [("", true); ("B", false); ("C", true)]).
  simpl. lia.
Defined.

(** ** Eliminated candidates *)

Lemma loop_Returns_In (allVotes : list (list string)) (fuel : nat)
      (currentOptions : list string) (w : string) :
  loop fuel allVotes currentOptions = Some (Returns w) -> In w currentOptions.
Proof.
  revert currentOptions. induction fuel as [|fuel IH]; intros cur H; [discriminate|].
  cbn [loop] in H. destruct (round allVotes cur) as [d|next] eqn:R.
  - injection H as ->. now apply round_Returns_In in R.
  - apply round_Continue in R. apply R. now apply IH.
Qed.

Lemma reaches_loop (allVotes : list (list string)) (cur final : list string) :
  reaches allVotes cur final ->
  forall fuel r, loop fuel allVotes cur = Some r ->
                 exists fuel', loop fuel' allVotes final = Some r.
Proof.
  induction 1 as [cur | cur next final R _ IH]; intros fuel r H.
  - now exists fuel.
  - destruct fuel as [|fuel]; [discriminate|]. cbn [loop] in H.
    rewrite R in H. now apply IH with (fuel := fuel).
Qed.

(** X14.  A candidate eliminated by a pass is returned only when that pass
    eliminated every candidate left, and it is then the first of the
    eliminated ones; a candidate eliminated by a pass that loops back is out
    for good: whatever the later passes do, the function does not return
    it. *)
Theorem eliminated_candidate_wins_only_in_fallback (fuel : nat)
        (options : list string) (allVotes : list (list string))
        (currentOptions : list string) (lowest : nat) (c : string) :
  allVotes <> [] ->
  reaches allVotes options currentOptions ->
  length currentOptions <> 1 ->
  majorityWinner allVotes currentOptions = None ->
  lowestVoteCount allVotes currentOptions = Some lowest ->
  In c (eliminatedOptions allVotes currentOptions lowest) ->
  (remainingOptions allVotes currentOptions lowest <> [] ->
   calculateRankedChoiceWinner fuel options allVotes <> Some (Returns c))
  /\ (calculateRankedChoiceWinner fuel options allVotes = Some (Returns c) ->
      remainingOptions allVotes currentOptions lowest = [] /\
      hd_error (eliminatedOptions allVotes currentOptions lowest) = Some c).
Proof.
  intros Hv Rch N M L Hc.
  assert (forall r, calculateRankedChoiceWinner fuel options allVotes = Some r ->
                    exists fuel', loop (S fuel') allVotes currentOptions = Some r)
    as Run.
  { intros r H. rewrite calculate_nonempty in H by assumption.
    destruct (reaches_loop _ _ _ Rch _ _ H) as [[|fuel'] H']; [discriminate|].
    now exists fuel'. }
  pose proof (round_tally allVotes currentOptions N) as R. rewrite M, L in R.
  split.
  - intros Rem H. destruct (Run _ H) as [fuel' H']. cbn [loop] in H'.
    destruct (remainingOptions allVotes currentOptions lowest) as [|x next] eqn:E;
      [congruence|].
    rewrite R in H'. apply loop_Returns_In in H'.
    rewrite <- E in H'. apply remainingOptions_In in H'.
    apply eliminatedOptions_In in Hc. tauto.
  - intros H. destruct (Run _ H) as [fuel' H']. cbn [loop] in H'.
    destruct (remainingOptions allVotes currentOptions lowest) as [|x next] eqn:E.
    + split; [reflexivity|]. rewrite R in H'.
      destruct (eliminatedOptions allVotes currentOptions lowest);
        [discriminate | now injection H' as ->].
    + rewrite R in H'. apply loop_Returns_In in H'.
      rewrite <- E in H'. apply remainingOptions_In in H'.
      apply eliminatedOptions_In in Hc. tauto.
Qed.

Lemma eliminated_candidate_wins_only_in_fallback_witness :
  calculateRankedChoiceWinner 3 ["A"; "B"; "C"]
    [["A"]; ["A"]; ["B"]; ["B"]; ["C"; "B"]] <> Some (Returns "C").
Proof.
  apply (eliminated_candidate_wins_only_in_fallback 3 ["A"; "B"; "C"]
           [["A"]; ["A"]; ["B"]; ["B"]; ["C"; "B"]] ["A"; "B"; "C"] 1 "C").
  - discriminate.
  - constructor.
  - discriminate.
  - reflexivity.
  - reflexivity.
  - simpl. auto.
  - discriminate.
Defined.

(** In the fallback the candidate returned is one of those the pass has just
    eliminated. *)
Example fallback_returns_an_eliminated_candidate :
  eliminatedOptions [["A"; "B"]; ["B"; "A"]] ["A"; "B"] 1 = ["A"; "B"] /\
  remainingOptions [["A"; "B"]; ["B"; "A"]] ["A"; "B"] 1 = [] /\
  calculateRankedChoiceWinner 1 ["A"; "B"] [["A"; "B"]; ["B"; "A"]]
  = Some (Returns "A").
Proof. repeat split. Qed.

(** ** Malformed ballots *)

(** X15.  An entry of a ballot that is not in the catalog is inert: the
    result is the one of the same ballot without that entry.  A duplicated
    entry is matched on its first occurrence only: the result is the one of
    the same ballot without the later occurrence.  A ballot whose first entry
    in the working set is neither the empty string nor [__proto__] adds one
    to the tally of that entry and nothing to the others, whatever it omits.
    And with a non-empty catalog that holds [__proto__] at most once no
    ballot makes the function fail. *)
Theorem malformed_ballots_tolerated (options : list string)
        (before after : list (list string)) :
  (forall fuel l1 l2 x, ~ In x options ->
      calculateRankedChoiceWinner fuel options (before ++ (l1 ++ x :: l2) :: after)
      = calculateRankedChoiceWinner fuel options (before ++ (l1 ++ l2) :: after))
  /\ (forall fuel l1 l2 l3 x,
      calculateRankedChoiceWinner fuel options
        (before ++ (l1 ++ x :: l2 ++ x :: l3) :: after)
      = calculateRankedChoiceWinner fuel options
          (before ++ (l1 ++ x :: l2 ++ l3) :: after))
  /\ (forall currentOptions l1 c l2,
      In c currentOptions -> (forall x, In x l1 -> ~ In x currentOptions) ->
      c <> "" -> c <> JS.protoKey ->
      let b := l1 ++ c :: l2 in
      firstChoice currentOptions b = Some c
      /\ exists n,
          JS.getProp (firstPlaceVotes (before ++ after) currentOptions) c = Some n
          /\ JS.getProp (firstPlaceVotes (before ++ b :: after) currentOptions) c
             = Some (S n)
          /\ forall k, k <> c ->
               JS.getProp (firstPlaceVotes (before ++ b :: after) currentOptions) k
               = JS.getProp (firstPlaceVotes (before ++ after) currentOptions) k)
  /\ (options <> [] -> count_occ string_dec options JS.protoKey <= 1 ->
      forall b, exists w,
        In w options /\
        forall fuel, length options <= fuel ->
          calculateRankedChoiceWinner fuel options (before ++ b :: after)
          = Some (Returns w)).
Proof.
  split; [|split; [|split]].
  - intros fuel l1 l2 x Hx. apply loop_ballot.
    intros cur Hcur. apply firstChoice_skip. intros H. apply Hx. now apply Hcur.
  - intros fuel l1 l2 l3 x. apply loop_ballot.
    intros cur _. apply firstChoice_dup.
  - intros cur l1 c l2 Hin Hl1 E P b.
    assert (firstChoice cur b = Some c) as F
        by (apply firstChoice_first; exists l1, l2; auto).
    split; [assumption|].
    assert (countedFor cur c b = true) as Cc.
    { unfold countedFor. rewrite F, String.eqb_refl. unfold JS.truthy.
      apply String.eqb_neq in E, P. now rewrite E, P. }
    assert (forall k, k <> c -> countedFor cur k b = false) as Ck.
    { intros k Hk. unfold countedFor. rewrite F.
      assert (String.eqb c k = false) as -> by (apply String.eqb_neq; congruence).
      reflexivity. }
    exists (votesFor cur c (before ++ after)). split; [|split].
    + apply tally_Some. auto.
    + apply tally_Some. split; [assumption|]. split; [assumption|].
      rewrite votesFor_insert, Cc. lia.
    + intros k Hk. rewrite !tally_votesFor, votesFor_insert, (Ck k Hk).
      now rewrite Nat.add_0_r.
  - intros Ho Hp b.
    destruct (loop_returns (before ++ b :: after) (length options) options Ho Hp
                (le_n _)) as [w [Hw Hin]].
    exists w. split; [assumption|]. intros fuel Hf.
    rewrite calculate_nonempty by (now destruct before).
    now apply loop_more_fuel with (fuel := length options).
Qed.
